(** * The ingestion orchestrator of horizon ([ingest/ingester.go])

    A shallow embedding of [System]'s entry points: [updateLedgerState],
    [ReingestRange], [ReingestSingle], [ReingestAll], [ReingestOutdated],
    [runOnce] and [run].  The two databases, the ingestion session, the
    logger and the crash reporter live outside the file: they are taken as
    collaborators acting on an abstract world, and everything the
    orchestrator does to them is recorded in a trace of events. *)

From Stdlib Require Import ZArith List Bool Lia Sorted.
Import ListNotations.
Local Open Scope Z_scope.

(** ** Machine integers *)

(** Go's [int32]: a [Z] kept in [[-2^31, 2^31)] by wrapping after each
    arithmetic operation. *)
Abbreviation int32 := Z (only parsing).
Definition min_int32 : Z := - 2 ^ 31.
Definition max_int32 : Z := 2 ^ 31 - 1.
Definition wrap32 (z : Z) : int32 := (z + 2 ^ 31) mod 2 ^ 32 - 2 ^ 31.
Definition add32 (a b : int32) : int32 := wrap32 (a + b).
Definition in_int32 (z : Z) : Prop := min_int32 <= z <= max_int32.

(** Go's [int] (64 bits on the platforms horizon targets), used for the
    ingested counts. *)
Abbreviation int := Z (only parsing).
Definition wrap_int (z : Z) : int := (z + 2 ^ 63) mod 2 ^ 64 - 2 ^ 63.
Definition add_int (a b : int) : int := wrap_int (a + b).

(** ** Results of computations

    A Go call either returns, or panics with a value; a loop without a
    bound is run on fuel and may exhaust it.  The value of a panic is an
    interface value: [None] is [nil], as after [panic(nil)]. *)
Inductive Res (P S A : Type) : Type :=
| Done (a : A) (s : S)
| Panicked (p : option P) (s : S)
| OutOfFuel.
Arguments Done {P S A} a s.
Arguments Panicked {P S A} p s.
Arguments OutOfFuel {P S A}.

Definition M (P S A : Type) : Type := S -> Res P S A.

Definition ret {P S A} (a : A) : M P S A := fun s => Done a s.

Definition bind {P S A B} (c : M P S A) (k : A -> M P S B) : M P S B :=
  fun s =>
    match c s with
    | Done a s' => k a s'
    | Panicked p s' => Panicked p s'
    | OutOfFuel => OutOfFuel
    end.

Declare Scope go_scope.
Delimit Scope go_scope with go.
Notation "x <- c ;; k" := (bind c (fun x => k))
  (at level 61, c at next level, right associativity) : go_scope.
Notation "' pat <- c ;; k" := (bind c (fun x => match x with pat => k end))
  (at level 61, pat pattern, c at next level, right associativity) : go_scope.
Notation "c ;;; k" := (bind c (fun _ => k))
  (at level 61, right associativity) : go_scope.
Local Open Scope go_scope.

(** A Go [error] value: [None] is [nil]. *)
Definition error (Err : Type) : Type := option Err.

(** A ledger range as handed to the driver: [(start, end)]. *)
Definition Range : Type := (int32 * int32)%type.

(** ** The batching loop of [ReingestOutdated] (lines 48-85)

    The loop is written once, over whatever the [flush] closure does.
    [start] and [end] are the closure's captured variables, [n] is the named
    result the closure adds to; [flush] gets them as arguments and gives the
    new [n] back with its error. *)
Section Batching.
Context {P S Err : Type}.
Variable flush : int32 -> int32 -> int -> M P S (int * error Err).

(** [for idx := range outdated { ... }] followed by the last [flush()]. *)
Fixpoint range_loop (outdated : list int32) (start end_ : int32) (n : int)
  : M P S (int * error Err) :=
  match outdated with
  | [] => flush start end_ n
  | seq :: rest =>
      if start =? 0 then range_loop rest seq seq n
      else if seq =? add32 end_ 1 then range_loop rest start seq n
      else
        '(n', err) <- flush start end_ n ;;
        match err with
        | Some e => ret (n', Some e)
        | None => range_loop rest seq seq n'
        end
  end.

(** [var start, end int32] are zero when the loop is entered. *)
Definition process_batch (outdated : list int32) (n : int)
  : M P S (int * error Err) :=
  range_loop outdated 0 0 n.

(** Calling the closure on each range of a list in turn, stopping at the
    first error: what the sweep is specified to do with its batches. *)
Fixpoint run_ranges (rs : list Range) (n : int) : M P S (int * error Err) :=
  match rs with
  | [] => ret (n, None)
  | (s, e) :: rs' =>
      '(n', err) <- flush s e n ;;
      match err with
      | Some x => ret (n', Some x)
      | None => run_ranges rs' n'
      end
  end.
End Batching.

(** The body of [ReingestSingle] (lines 107-108), written over the driver
    it calls so that the call can be watched: [_, err := driver(sequence,
    sequence); return err]. *)
Definition ReingestSingle_with {P S Err : Type}
    (driver : int32 -> int32 -> M P S (int * error Err)) (sequence : int32)
  : M P S (error Err) :=
  '(_, err) <- driver sequence sequence ;;
  ret err.


(** The ranges on which the loop calls [flush], read off by running it with
    a closure that only records its arguments and never fails. *)
Definition record_flush (start end_ : int32) (n : int)
  : M Empty_set (list Range) (int * error Empty_set) :=
  fun rs => Done (n, None) (rs ++ [(start, end_)]).

(** The batching step of one sweep iteration: an empty query result ends
    the sweep before the loop is reached (line 39). *)
Definition batch (outdated : list int32) : list Range :=
  match outdated with
  | [] => []
  | _ :: _ =>
      match process_batch record_flush outdated 0 [] with
      | Done _ rs => rs
      | _ => []
      end
  end.

(** The same ranges as a plain recursion on the open run [(start, end)]. *)
Fixpoint runs_from (outdated : list int32) (start end_ : int32) : list Range :=
  match outdated with
  | [] => [(start, end_)]
  | seq :: rest =>
      if start =? 0 then runs_from rest seq seq
      else if seq =? add32 end_ 1 then runs_from rest start seq
      else (start, end_) :: runs_from rest seq seq
  end.

(** The sequence numbers a range stands for, in ascending order. *)
Definition range_elems (r : Range) : list Z :=
  map (fun k => fst r + Z.of_nat k) (seq 0 (Z.to_nat (snd r - fst r + 1))).

Definition in_range (x : Z) (r : Range) : Prop := fst r <= x <= snd r.

(** Two ranges of one emitted list: the earlier one ends more than one
    below the start of the later one. *)
Definition apart (r1 r2 : Range) : Prop := snd r1 + 1 < fst r2.

(** ** The orchestrator and its collaborators *)

(** The outcome of a call into a collaborator: it returns or it panics. *)
Inductive Ext (P A : Type) : Type :=
| ERet (a : A)
| EPanic (p : option P).
Arguments ERet {P A} a.
Arguments EPanic {P A} p.

(** An ingestion session as [session.NewSession] builds it: the cursor's
    bounds, the version, and the [ClearExisting] flag, false until set.
    The store handles, cache and metrics it is given are those of the
    [System] and are part of the world. *)
Record Session : Type := mkSession {
  FirstLedger : int32;
  LastLedger : int32;
  Version : int32;
  ClearExisting : bool
}.

Definition NewSession (first last version : int32) : Session :=
  mkSession first last version false.

Definition setClearExisting (b : bool) (s : Session) : Session :=
  mkSession (FirstLedger s) (LastLedger s) (Version s) b.

(** The two fields of [System] that the file reads and writes. *)
Record System : Type := mkSystem {
  coreSequence : int32;
  historySequence : int32
}.

Inductive Level : Type := Debug | Info | Error.

(** The messages the file logs, with their fields. *)
Inductive LogMsg (Err : Type) : Type :=
| MsgTicking
| MsgOutdated (lowest_sequence : int32) (batch_size : Z)
| MsgStateFailed (e : Err)
| MsgSessionFailed (e : Err)
| MsgSessionPanicked (e : Err).
Arguments MsgTicking {Err}.
Arguments MsgOutdated {Err} lowest_sequence batch_size.
Arguments MsgStateFailed {Err} e.
Arguments MsgSessionFailed {Err} e.
Arguments MsgSessionPanicked {Err} e.

(** What the orchestrator does to the outside, in order. *)
Inductive Event (P Err : Type) : Type :=
| EvSession (s : Session) (out : Ext P (int * error Err))
| EvLog (lvl : Level) (m : LogMsg Err)
| EvSentry (e : Err).
Arguments EvSession {P Err} s out.
Arguments EvLog {P Err} lvl m.
Arguments EvSentry {P Err} e.

(** The collaborators.  [W] is the state of everything outside the
    orchestrator (both databases, cache, metrics).  A latest-ledger query
    gives the sequence it stores through its destination pointer, or an
    error, in which case the destination is taken to keep its value.
    [session_Run] gives [Ingested] as read after the run, and the run's
    error.  [FromPanic] is [errors.FromPanic]. *)
Record Collaborators (W P Err : Type) : Type := mkCollaborators {
  CurrentVersion : int32;
  core_LatestLedger : W -> W * Ext P (Err + int32);
  history_LatestLedger : W -> W * Ext P (Err + int32);
  OldestOutdatedLedgers : int32 -> W -> W * Ext P (Err + list int32);
  session_Run : Session -> W -> W * Ext P (int * error Err);
  FromPanic : P -> Err
}.
Arguments CurrentVersion {W P Err} _.
Arguments core_LatestLedger {W P Err} _ _.
Arguments history_LatestLedger {W P Err} _ _.
Arguments OldestOutdatedLedgers {W P Err} _ _ _.
Arguments session_Run {W P Err} _ _ _.
Arguments FromPanic {W P Err} _ _.

(** The whole state: the orchestrator's fields, the world, the trace. *)
Record St (W P Err : Type) : Type := mkSt {
  sys : System;
  world : W;
  events : list (Event P Err)
}.
Arguments mkSt {W P Err} sys world events.
Arguments sys {W P Err} _.
Arguments world {W P Err} _.
Arguments events {W P Err} _.

(** The ingested counts of the session runs of a trace that returned
    without error, and their sum on top of [n] as Go adds them. *)
Definition ok_counts {P Err} (evs : list (Event P Err)) : list Z :=
  flat_map (fun ev =>
              match ev with
              | EvSession _ (ERet (k, None)) => [k]
              | _ => []
              end) evs.

Definition add_counts (n : Z) (ks : list Z) : Z := fold_left add_int ks n.

(** The sessions of a trace, in the order they were run. *)
Definition sessions {P Err} (evs : list (Event P Err)) : list Session :=
  flat_map (fun ev =>
              match ev with
              | EvSession s _ => [s]
              | _ => []
              end) evs.

(** A loop's verdict after one pass of its body. *)
Inductive Control (A : Type) : Type :=
| Continue
| Return (a : A).
Arguments Continue {A}.
Arguments Return {A} a.

Section Ingester.
Context {W P Err : Type}.
Variable env : Collaborators W P Err.

Local Abbreviation State := (St W P Err).
Local Abbreviation Go := (M P State).

Definition get_sys : Go System := fun st => Done (sys st) st.

Definition set_coreSequence (v : int32) : Go unit :=
  fun st =>
    Done tt (mkSt (mkSystem v (historySequence (sys st))) (world st) (events st)).

Definition set_historySequence (v : int32) : Go unit :=
  fun st =>
    Done tt (mkSt (mkSystem (coreSequence (sys st)) v) (world st) (events st)).

Definition emit (ev : Event P Err) : Go unit :=
  fun st => Done tt (mkSt (sys st) (world st) (events st ++ [ev])).

Definition log (lvl : Level) (m : LogMsg Err) : Go unit := emit (EvLog lvl m).

Definition ReportToSentry (e : Err) : Go unit := emit (EvSentry e).

(** A query: the world moves on, a panic propagates. *)
Definition query {A} (q : W -> W * Ext P A) : Go A :=
  fun st =>
    let '(w', out) := q (world st) in
    let st' := mkSt (sys st) w' (events st) in
    match out with
    | ERet a => Done a st'
    | EPanic p => Panicked p st'
    end.

(** [is.Run()] followed by reading [is.Ingested]; the run is recorded. *)
Definition Run (is_ : Session) : Go (int * error Err) :=
  fun st =>
    let '(w', out) := session_Run env is_ (world st) in
    let st' := mkSt (sys st) w' (events st ++ [EvSession is_ out]) in
    match out with
    | ERet r => Done r st'
    | EPanic p => Panicked p st'
    end.

(** [updateLedgerState] (lines 177-192): each query writes through a
    pointer to the field itself. *)
Definition updateLedgerState : Go (error Err) :=
  r <- query (core_LatestLedger env) ;;
  match r with
  | inl e => ret (Some e)
  | inr c =>
      set_coreSequence c ;;;
      r' <- query (history_LatestLedger env) ;;
      match r' with
      | inl e => ret (Some e)
      | inr h => set_historySequence h ;;; ret None
      end
  end.

(** [ReingestRange] (lines 90-103). *)
Definition ReingestRange (start end_ : int32) : Go (int * error Err) :=
  i <- get_sys ;;
  let is_ := NewSession (add32 (historySequence i) 1) (coreSequence i)
               (CurrentVersion env) in
  let is_ := setClearExisting true is_ in
  '(ingested, err) <- Run is_ ;;
  ret (ingested, err).

(** The session every call of the driver builds in state [st]. *)
Definition driver_session (st : State) : Session :=
  mkSession (add32 (historySequence (sys st)) 1) (coreSequence (sys st))
    (CurrentVersion env) true.

(** [ReingestSingle] (lines 106-109): [ReingestSingle_with], below the
    batching loop, with [ReingestRange] as the driver it calls. *)
Definition ReingestSingle (sequence : int32) : Go (error Err) :=
  ReingestSingle_with ReingestRange sequence.

(** [ReingestAll] (lines 18-24). *)
Definition ReingestAll : Go (int * error Err) :=
  err <- updateLedgerState ;;
  match err with
  | Some e => ret (0, Some e)
  | None =>
      i <- get_sys ;;
      ReingestRange 1 (coreSequence i)
  end.

(** The [flush] closure of [ReingestOutdated] (lines 49-57). *)
Definition flush (start end_ : int32) (n : int) : Go (int * error Err) :=
  '(ingested, ferr) <- ReingestRange start end_ ;;
  match ferr with
  | Some e => ret (n, Some e)
  | None => ret (add_int n ingested, None)
  end.

(** One pass of the outer [for] of [ReingestOutdated] (lines 33-85). *)
Definition sweep_pass (n : int) : Go (Control (int * error Err) * int) :=
  r <- query (OldestOutdatedLedgers env (CurrentVersion env)) ;;
  match r with
  | inl e => ret (Return (n, Some e), n)
  | inr outdated =>
      match outdated with
      | [] => ret (Return (n, None), n)
      | lowest :: _ =>
          log Info (MsgOutdated lowest (Z.of_nat (length outdated))) ;;;
          '(n', err) <- process_batch flush outdated n ;;
          match err with
          | Some e => ret (Return (n', Some e), n')
          | None => ret (Continue, n')
          end
      end
  end.

(** The outer [for] of [ReingestOutdated], which has no bound. *)
Fixpoint sweep_loop (fuel : nat) (n : int) : Go (int * error Err) :=
  match fuel with
  | O => fun _ => OutOfFuel
  | S fuel' =>
      '(c, n') <- sweep_pass n ;;
      match c with
      | Return r => ret r
      | Continue => sweep_loop fuel' n'
      end
  end.

(** [ReingestOutdated] (lines 27-87): the named result [n] starts at 0. *)
Definition ReingestOutdated (fuel : nat) : Go (int * error Err) :=
  sweep_loop fuel 0.

(** One pass of the [for] of [runOnce] (lines 140-172). *)
Definition runOnce_pass : Go (Control unit) :=
  err <- updateLedgerState ;;
  match err with
  | Some e => log Error (MsgStateFailed e) ;;; ret (Return tt)
  | None =>
      i <- get_sys ;;
      if historySequence i >=? coreSequence i then ret (Return tt)
      else
        let is_ := NewSession (add32 (historySequence i) 1) (coreSequence i)
                     (CurrentVersion env) in
        '(ingested, err) <- Run is_ ;;
        match err with
        | Some e => log Error (MsgSessionFailed e) ;;; ret (Return tt)
        | None => if ingested =? 0 then ret (Return tt) else ret Continue
        end
  end.

(** The [for] of [runOnce], which has no bound. *)
Fixpoint runOnce_loop (fuel : nat) : Go unit :=
  match fuel with
  | O => fun _ => OutOfFuel
  | S fuel' =>
      c <- runOnce_pass ;;
      match c with
      | Return _ => ret tt
      | Continue => runOnce_loop fuel'
      end
  end.

(** The body of the deferred function of [runOnce] (lines 130-132), for the
    value [rec] that [recover()] gave when it is not [nil]. *)
Definition recovered (rec : P) : Go unit :=
  let err := FromPanic env rec in
  log Error (MsgSessionPanicked err) ;;;
  ReportToSentry err.

(** [defer func() { if rec := recover(); rec != nil { ... } }()]: on a
    normal return [recover()] is [nil] and the deferred function does
    nothing; a panic stops at it, and its value goes through the
    [rec != nil] test of line 129: a panic whose value is [nil] is stopped
    and nothing more is done. *)
Definition with_recover (body : Go unit) : Go unit :=
  fun st =>
    match body st with
    | Done a st' => Done a st'
    | Panicked (Some rec) st' => recovered rec st'
    | Panicked None st' => Done tt st'
    | OutOfFuel => OutOfFuel
    end.

(** [runOnce] (lines 126-175). *)
Definition runOnce (fuel : nat) : Go unit := with_recover (runOnce_loop fuel).

(** [run] (lines 117-122) over the next [ticks] ticks of the timer. *)
Fixpoint run (ticks fuel : nat) : Go unit :=
  match ticks with
  | O => ret tt
  | S ticks' =>
      log Debug MsgTicking ;;;
      runOnce fuel ;;;
      run ticks' fuel
  end.
End Ingester.

(** ** Stub collaborators, for running the code on concrete inputs *)
Module Stub.
(** Panic values and errors of the stubs. *)
Definition PanicVal : Type := Z.
Inductive Err : Type :=
| Failure (code : Z)
| PanicError (rec : PanicVal).

(** A world in which the session ingests every ledger it is asked for:
    the latest sequence of the source store and of the history store. *)
Record Stores : Type := mkStores {
  core_latest : int32;
  history_latest : int32
}.

Definition ingest_all (is_ : Session) (w : Stores)
  : Stores * Ext PanicVal (int * error Err) :=
  if LastLedger is_ <? FirstLedger is_ then (w, ERet (0, None))
  else (mkStores (core_latest w) (LastLedger is_),
        ERet (LastLedger is_ - FirstLedger is_ + 1, None)).

Definition catchup : Collaborators Stores PanicVal Err :=
  mkCollaborators Stores PanicVal Err
    7
    (fun w => (w, ERet (inr (core_latest w))))
    (fun w => (w, ERet (inr (history_latest w))))
    (fun _ w => (w, ERet (inr [])))
    ingest_all
    PanicError.

(** A scripted world: what each store answers, the pages the outdated
    query gives one after the other, and the outcomes of the successive
    session runs. *)
Record Script : Type := mkScript {
  core_answer : Err + int32;
  history_answer : Err + int32;
  pages : list (Err + list int32);
  runs : list (Ext PanicVal (int * error Err))
}.

Definition next_page (w : Script)
  : Script * Ext PanicVal (Err + list int32) :=
  match pages w with
  | [] => (w, ERet (inr []))
  | p :: ps =>
      (mkScript (core_answer w) (history_answer w) ps (runs w), ERet p)
  end.

Definition next_run (w : Script) : Script * Ext PanicVal (int * error Err) :=
  match runs w with
  | [] => (w, ERet (0, None))
  | r :: rs =>
      (mkScript (core_answer w) (history_answer w) (pages w) rs, r)
  end.

Definition scripted : Collaborators Script PanicVal Err :=
  mkCollaborators Script PanicVal Err
    7
    (fun w => (w, ERet (core_answer w)))
    (fun w => (w, ERet (history_answer w)))
    (fun _ => next_page)
    (fun _ => next_run)
    PanicError.

Definition start_state {W : Type} (c h : int32) (w : W) : St W PanicVal Err :=
  mkSt (mkSystem c h) w [].

(** The source store is at 100, the history store at 40; the orchestrator
    has not looked yet. *)
Definition behind : St Stores PanicVal Err :=
  start_state 0 0 (mkStores 100 40).

(** The same after a refresh. *)
Definition behind_refreshed : St Stores PanicVal Err :=
  start_state 100 40 (mkStores 100 40).

(** The source store answers 100, the history store fails; the
    orchestrator holds 10 and 5 from before. *)
Definition history_down : St Script PanicVal Err :=
  start_state 10 5 (mkScript (inr 100) (inl (Failure 1)) [] []).

(** The source store fails. *)
Definition core_down : St Script PanicVal Err :=
  start_state 10 5 (mkScript (inl (Failure 2)) (inr 40) [] []).

(** History is behind and the session panics. *)
Definition session_panics : St Script PanicVal Err :=
  start_state 0 0 (mkScript (inr 100) (inr 40) [] [EPanic (Some 13)]).

(** History is behind and the session panics with [nil]. *)
Definition session_panics_nil : St Script PanicVal Err :=
  start_state 0 0 (mkScript (inr 100) (inr 40) [] [EPanic None]).

(** One page of outdated ledgers in three runs; the first run ingests 3
    ledgers, the second stops with an error after 1, and nothing more is
    outdated afterwards. *)
Definition second_range_fails : St Script PanicVal Err :=
  start_state 100 100
    (mkScript (inr 100) (inr 100) [inr [3; 4; 5; 8; 11; 12]]
       [ERet (3, None); ERet (1, Some (Failure 3)); ERet (2, None)]).

End Stub.

(** ** Vocabulary for traces and range lists *)

(** The state a computation ends in, when it ends: by returning or by
    panicking. *)
Definition end_state {P S A} (r : Res P S A) : option S :=
  match r with
  | Done _ s => Some s
  | Panicked _ s => Some s
  | OutOfFuel => None
  end.

(** A list of ranges in which no range starts right after the end of the
    one before it. *)
Fixpoint unmergeable (rs : list Range) : Prop :=
  match rs with
  | r1 :: rest =>
      match rest with
      | r2 :: _ => fst r2 <> snd r1 + 1
      | [] => True
      end /\ unmergeable rest
  | [] => True
  end.

(** The plain sum of a list of counts. *)
Definition sumZ (ks : list Z) : Z := fold_right Z.add 0 ks.

(** The errors sent to the crash reporter in a trace. *)
Definition reports {P Err} (evs : list (Event P Err)) : list Err :=
  flat_map (fun ev =>
              match ev with
              | EvSentry e => [e]
              | _ => []
              end) evs.

(** The number of "ticking ingester" lines in a trace. *)
Definition tickings {P Err} (evs : list (Event P Err)) : nat :=
  length (filter (fun ev =>
                    match ev with
                    | EvLog Debug MsgTicking => true
                    | _ => false
                    end) evs).

(** The trace of a number of ticks: for each, the "ticking ingester" line
    followed by a block of events. *)
Definition tick_blocks {P Err} (blocks : list (list (Event P Err)))
  : list (Event P Err) :=
  concat (map (fun b => EvLog Debug MsgTicking :: b) blocks).

(** A block of events that one [runOnce] left, started right after a
    "ticking ingester" line. *)
Definition one_runOnce {W P Err} (env : Collaborators W P Err) (fuel : nat)
    (b : list (Event P Err)) : Prop :=
  exists s s' : St W P Err,
    runOnce env fuel
      (mkSt (sys s) (world s) (events s ++ [EvLog Debug MsgTicking]))
    = Done tt s' /\
    events s' = (events s ++ [EvLog Debug MsgTicking]) ++ b.

(** A catch-up session built from two answers of the stores: it goes from
    [h + 1] to [c], where the history store said [h], the source store said
    [c], and [h < c]. *)
Definition read_from_stores {W P Err} (env : Collaborators W P Err)
    (s : Session) : Prop :=
  exists w1 w1' w2 w2' c h,
    core_LatestLedger env w1 = (w1', ERet (inr c)) /\
    history_LatestLedger env w2 = (w2', ERet (inr h)) /\
    h < c /\
    s = mkSession (add32 h 1) c (CurrentVersion env) false.

(** What the body of [runOnce] may leave in the trace. *)
Definition catchup_event {W P Err} (env : Collaborators W P Err)
    (ev : Event P Err) : Prop :=
  match ev with
  | EvSession s _ => read_from_stores env s
  | EvLog Error (MsgStateFailed _) => True
  | EvLog Error (MsgSessionFailed _) => True
  | _ => False
  end.

(** What a sweep started in state [st] may leave in the trace. *)
Definition sweep_event {W P Err} (env : Collaborators W P Err)
    (st : St W P Err) (ev : Event P Err) : Prop :=
  match ev with
  | EvSession s _ => s = driver_session env st
  | EvLog Info (MsgOutdated _ _) => True
  | _ => False
  end.

(** Both stores only ever answer with [int32] values. *)
Definition answers_int32 {W P Err} (env : Collaborators W P Err) : Prop :=
  (forall w w' c, core_LatestLedger env w = (w', ERet (inr c)) -> in_int32 c) /\
  (forall w w' h, history_LatestLedger env w = (w', ERet (inr h)) -> in_int32 h).

(** ** More stub collaborators *)
Module Stub2.
(** History is at 40 until the first session has run, and at 100 after it;
    the source store is at 100; each session reports 60 ledgers. *)
Definition two_step : Collaborators bool Stub.PanicVal Stub.Err :=
  mkCollaborators bool Stub.PanicVal Stub.Err
    7
    (fun w => (w, ERet (inr 100)))
    (fun w => (w, ERet (inr (if w then 100 else 40))))
    (fun _ w => (w, ERet (inr [])))
    (fun _ _ => (true, ERet (60, None)))
    Stub.PanicError.

(** Ledger 7 stays outdated whatever is run, and every session returns
    without error having ingested nothing. *)
Definition stuck : Collaborators unit Stub.PanicVal Stub.Err :=
  mkCollaborators unit Stub.PanicVal Stub.Err
    7
    (fun w => (w, ERet (inr 100)))
    (fun w => (w, ERet (inr 100)))
    (fun _ w => (w, ERet (inr [7])))
    (fun _ w => (w, ERet (0, None)))
    Stub.PanicError.

(** History is ahead of nothing: both stores are at 100. *)
Definition in_sync : St Stub.Stores Stub.PanicVal Stub.Err :=
  Stub.start_state 0 0 (Stub.mkStores 100 100).
End Stub2.

(** * Properties *)

(** ** Machine arithmetic *)

Lemma add32_succ (e : Z) :
  min_int32 <= e < max_int32 -> add32 e 1 = e + 1.
Proof.
  unfold add32, wrap32, min_int32, max_int32. intros H.
  rewrite Z.mod_small; lia.
Qed.

Lemma add32_max : add32 max_int32 1 = min_int32.
Proof. reflexivity. Qed.

(** ** The monad *)

Lemma bind_Done {P S A B} (c : M P S A) (k : A -> M P S B) s a s' :
  c s = Done a s' -> bind c k s = k a s'.
Proof. unfold bind. intros ->. reflexivity. Qed.

Lemma bind_Panicked {P S A B} (c : M P S A) (k : A -> M P S B) s p s' :
  c s = Panicked p s' -> bind c k s = Panicked p s'.
Proof. unfold bind. intros ->. reflexivity. Qed.

(** ** Ranges *)

Lemma range_elems_single (s : Z) : range_elems (s, s) = [s].
Proof.
  unfold range_elems. simpl. replace (s - s + 1) with 1 by lia.
  simpl. f_equal. lia.
Qed.

Lemma range_elems_snoc (s e : Z) :
  s <= e + 1 -> range_elems (s, e + 1) = range_elems (s, e) ++ [e + 1].
Proof.
  intros H. unfold range_elems. simpl.
  replace (Z.to_nat (e + 1 - s + 1)) with (S (Z.to_nat (e - s + 1))) by lia.
  rewrite seq_S, map_app. simpl. do 2 f_equal. lia.
Qed.

Lemma in_range_elems (x : Z) (r : Range) :
  In x (range_elems r) <-> in_range x r.
Proof.
  unfold range_elems, in_range. rewrite in_map_iff. split.
  - intros [k [<- Hk]]. apply in_seq in Hk. lia.
  - intros H. exists (Z.to_nat (x - fst r)). split; [lia|].
    apply in_seq. lia.
Qed.

(** ** The batching loop *)

(** With the recording closure the loop appends exactly [runs_from]. *)
Lemma range_loop_record (l : list int32) :
  forall s e n rs,
    range_loop record_flush l s e n rs = Done (n, None) (rs ++ runs_from l s e).
Proof.
  induction l as [|x l IH]; intros s e n rs; simpl.
  - reflexivity.
  - destruct (s =? 0); [apply IH|].
    destruct (x =? add32 e 1); [apply IH|].
    unfold bind, record_flush. rewrite IH, <- app_assoc. reflexivity.
Qed.

Lemma batch_cons (x : int32) (l : list int32) :
  batch (x :: l) = runs_from l x x.
Proof.
  unfold batch, process_batch. rewrite range_loop_record. reflexivity.
Qed.

(** Whatever the closure does, the loop calls it on the ranges of
    [runs_from], in order, until one call gives an error. *)
Lemma range_loop_run_ranges {P S Err : Type}
    (fl : int32 -> int32 -> int -> M P S (int * error Err)) (l : list int32) :
  forall s e n st,
    range_loop fl l s e n st = run_ranges fl (runs_from l s e) n st.
Proof.
  induction l as [|x l IH]; intros s e n st; simpl.
  - unfold bind. destruct (fl s e n st) as [[n' [err|]] st'| |]; reflexivity.
  - destruct (s =? 0); [apply IH|].
    destruct (x =? add32 e 1); [apply IH|].
    cbn [run_ranges]. unfold bind.
    destruct (fl s e n st) as [[n' [err|]] st'| |]; try reflexivity.
    apply IH.
Qed.

Lemma process_batch_run_ranges {P S Err : Type}
    (fl : int32 -> int32 -> int -> M P S (int * error Err))
    (x : int32) (l : list int32) (n : int) (st : S) :
  process_batch fl (x :: l) n st = run_ranges fl (batch (x :: l)) n st.
Proof.
  unfold process_batch. rewrite range_loop_run_ranges, batch_cons. reflexivity.
Qed.

(** The open run [(s, e)] lies below what is left of an ascending input. *)
Lemma runs_from_sorted (l : list int32) :
  forall s e,
    1 <= s <= e -> e <= max_int32 ->
    Forall (fun x => e < x <= max_int32) l ->
    StronglySorted Z.lt l ->
    let rs := runs_from l s e in
    Forall (fun r => s <= fst r /\ fst r <= snd r) rs /\
    concat (map range_elems rs) = range_elems (s, e) ++ l /\
    StronglySorted apart rs.
Proof.
  induction l as [|x l IH]; intros s e Hse He Hall Hsorted; simpl.
  - repeat split.
    + constructor; [simpl; lia|constructor].
    + constructor; constructor.
  - inversion Hall as [|? ? Hx Hall']; subst. cbv beta in Hx.
    inversion Hsorted as [|? ? Hsorted' Hlt]; subst.
    assert (Hrest : Forall (fun y => x < y <= max_int32) l).
    { rewrite Forall_forall in *. intros y Hy.
      specialize (Hall' y Hy). specialize (Hlt y Hy). lia. }
    destruct (Z.eqb_spec s 0) as [Hs0|_]; [lia|].
    rewrite add32_succ by (unfold min_int32; lia).
    destruct (Z.eqb_spec x (e + 1)) as [Hext|Hgap].
    + subst x.
      destruct (IH s (e + 1)) as [H1 [H2 H3]]; try lia; auto.
      repeat split; auto.
      rewrite H2, range_elems_snoc by lia.
      rewrite <- app_assoc. reflexivity.
    + destruct (IH x x) as [H1 [H2 H3]]; try lia; auto.
      repeat split.
      * constructor; [simpl; lia|].
        eapply Forall_impl; [|exact H1]. simpl. intros r Hr. lia.
      * simpl. rewrite H2, range_elems_single. reflexivity.
      * constructor; auto.
        eapply Forall_impl; [|exact H1]. unfold apart. simpl. intros r Hr.
        lia.
Qed.

Lemma batch_sorted (l : list int32) :
  Forall (fun x => 1 <= x <= max_int32) l ->
  StronglySorted Z.lt l ->
  Forall (fun r => fst r <= snd r) (batch l) /\
  concat (map range_elems (batch l)) = l /\
  StronglySorted apart (batch l).
Proof.
  intros Hall Hsorted. destruct l as [|x l].
  - simpl. repeat split; constructor.
  - rewrite batch_cons.
    inversion Hall as [|? ? Hx Hall']; subst.
    inversion Hsorted as [|? ? Hsorted' Hlt]; subst.
    destruct (runs_from_sorted l x x) as [H1 [H2 H3]]; try lia; auto.
    { rewrite Forall_forall in *. intros y Hy.
      specialize (Hall' y Hy). specialize (Hlt y Hy). lia. }
    repeat split; auto.
    + eapply Forall_impl; [|exact H1]. simpl. intros r Hr. lia.
    + rewrite H2, range_elems_single. reflexivity.
Qed.

(** Two members of a strongly sorted list are the same or related. *)
Lemma StronglySorted_In2 {A} (R : A -> A -> Prop) (l : list A) :
  StronglySorted R l ->
  forall a b, In a l -> In b l -> a = b \/ R a b \/ R b a.
Proof.
  induction 1 as [|c l Hs IH Hc]; intros a b Ha Hb; [contradiction|].
  rewrite Forall_forall in Hc.
  destruct Ha as [<-|Ha], Hb as [<-|Hb]; auto.
Qed.

Lemma in_concat_ranges (x : Z) (rs : list Range) :
  In x (concat (map range_elems rs)) <-> exists r, In r rs /\ in_range x r.
Proof.
  rewrite in_concat. split.
  - intros [xs [Hxs Hx]]. apply in_map_iff in Hxs as [r [<- Hr]].
    exists r. split; auto. apply in_range_elems. exact Hx.
  - intros [r [Hr Hx]]. exists (range_elems r). split.
    + apply in_map. exact Hr.
    + apply in_range_elems. exact Hx.
Qed.

(** C3.  For an ascending, duplicate-free list of positive sequence numbers
    the batching step of the sweep emits exactly the maximal contiguous
    runs: every range has [start <= end]; the ranges come in ascending order
    of start and do not overlap; a number is in the input exactly when some
    range holds it, and the ranges spelled out one after the other are the
    input itself; two neighbouring input values that share a range differ by
    exactly one; two input values that differ by one share a range.  An
    empty input gives no range, [[5]] gives [[(5,5)]], and [[1;2;3;7;8;10]]
    gives [[(1,3);(7,8);(10,10)]]. *)
Theorem batch_emits_maximal_runs :
  (forall l : list int32,
      Forall (fun x => 1 <= x <= max_int32) l ->
      StronglySorted Z.lt l ->
      Forall (fun r => fst r <= snd r) (batch l) /\
      StronglySorted (fun r1 r2 => fst r1 < fst r2 /\ snd r1 < fst r2) (batch l) /\
      (forall x, In x l <-> exists r, In r (batch l) /\ in_range x r) /\
      concat (map range_elems (batch l)) = l /\
      (forall r x y,
          In r (batch l) -> In x l -> In y l ->
          in_range x r -> in_range y r -> x < y ->
          (forall z, In z l -> ~ x < z < y) ->
          y = x + 1) /\
      (forall x,
          In x l -> In (x + 1) l ->
          exists r, In r (batch l) /\ in_range x r /\ in_range (x + 1) r)) /\
  batch [] = [] /\
  batch [5] = [(5, 5)] /\
  batch [1; 2; 3; 7; 8; 10] = [(1, 3); (7, 8); (10, 10)].
Proof.
  split; [|repeat split; reflexivity].
  intros l Hpos Hasc.
  destruct (batch_sorted l Hpos Hasc) as [Hle [Hcat Hapart]].
  assert (Hcover : forall x, In x l <-> exists r, In r (batch l) /\ in_range x r).
  { intros x. rewrite <- in_concat_ranges, Hcat. reflexivity. }
  assert (Hle' : forall r, In r (batch l) -> fst r <= snd r).
  { apply Forall_forall. exact Hle. }
  repeat split.
  - exact Hle.
  - clear Hcat Hcover. induction Hapart as [|r rs Hs IH Hr]; constructor.
    + apply IH.
      * inversion Hle; assumption.
      * intros r' Hr'. apply Hle'. right. exact Hr'.
    + specialize (Hle' r (or_introl eq_refl)).
      eapply Forall_impl; [|exact Hr]. unfold apart. intros r' H'. lia.
  - apply Hcover.
  - apply Hcover.
  - exact Hcat.
  - intros r x y Hr Hx Hy Hxr Hyr Hxy Hnone.
    assert (Hin : In (x + 1) l).
    { apply Hcover. exists r. split; auto. unfold in_range in *. lia. }
    specialize (Hnone (x + 1) Hin). lia.
  - intros x Hx Hx1.
    apply Hcover in Hx as [r1 [Hr1 Hxr1]].
    apply Hcover in Hx1 as [r2 [Hr2 Hxr2]].
    destruct (StronglySorted_In2 apart (batch l) Hapart r1 r2 Hr1 Hr2)
      as [Heq|[Hlt|Hgt]].
    + subst r2. exists r1. auto.
    + unfold apart, in_range in *. lia.
    + unfold apart, in_range in *. lia.
Qed.

Lemma batch_emits_maximal_runs_witness :
  concat (map range_elems (batch [1; 2; 3; 7; 8; 10])) = [1; 2; 3; 7; 8; 10].
Proof.
  apply (proj1 batch_emits_maximal_runs [1; 2; 3; 7; 8; 10]).
  - repeat constructor; unfold max_int32; lia.
  - repeat constructor.
Defined.

(** ** The zero sentinel *)

Lemma last_cons_default {A} (l : list A) :
  forall x d, last (x :: l) d = last l x.
Proof.
  induction l as [|y l IH]; intros x d; [reflexivity|].
  change (last (x :: y :: l) d) with (last (y :: l) d).
  rewrite (IH y d), (IH y x). reflexivity.
Qed.

Lemma last_nonzero_default (l : list Z) (d d' : Z) :
  d <> 0 -> d' <> 0 -> last l d = 0 -> last l d' = 0.
Proof.
  destruct l as [|x l].
  - simpl. intros Hd _ H. contradiction.
  - intros _ _. rewrite !last_cons_default. auto.
Qed.

(** The open run is either unopened, [(0, 0)], or a run of positive
    numbers; on non-negative input only the last [flush] can see the
    former, and only when the input ends in 0. *)
Lemma runs_from_zero (l : list int32) :
  forall s e,
    (s = 0 /\ e = 0) \/ (0 < s <= e /\ e <= max_int32) ->
    Forall (fun x => 0 <= x <= max_int32) l ->
    (forall r, In r (runs_from l s e) -> in_range 0 r ->
               r = (0, 0) /\ last l s = 0) /\
    (last l s = 0 -> In (0, 0) (runs_from l s e)).
Proof.
  induction l as [|x l IH]; intros s e Hse Hall.
  - simpl. split.
    + intros r [<-|[]] H0. unfold in_range in H0. simpl in H0.
      destruct Hse as [[-> ->]|Hse]; [auto|lia].
    + intros ->. destruct Hse as [[_ ->]|Hse]; [auto|lia].
  - inversion Hall as [|? ? Hx Hall']; subst. cbv beta in Hx.
    assert (Hxx : (x = 0 /\ x = 0) \/ (0 < x <= x /\ x <= max_int32)) by lia.
    rewrite last_cons_default. simpl runs_from.
    destruct (Z.eqb_spec s 0) as [Hs0|Hs0]; [apply IH; auto|].
    destruct Hse as [[Hs _]|[Hse He]]; [contradiction|].
    destruct (Z.eqb_spec x (add32 e 1)) as [Hext|Hgap].
    + assert (e < max_int32).
      { destruct (Z.eq_dec e max_int32) as [->|]; [|lia].
        rewrite add32_max in Hext. unfold min_int32 in Hext. lia. }
      rewrite add32_succ in Hext by (unfold min_int32; lia).
      destruct (IH s x) as [H1 H2]; [lia|auto|]. split.
      * intros r Hr H0. destruct (H1 r Hr H0) as [-> Hl]. split; auto.
        apply (last_nonzero_default l s x); auto; lia.
      * intros Hl. apply H2. apply (last_nonzero_default l x s); auto; lia.
    + destruct (IH x x Hxx Hall') as [H1 H2]. split.
      * intros r [<-|Hr] H0; [|auto].
        unfold in_range in H0. simpl in H0. lia.
      * intros Hl. right. auto.
Qed.

(** C10, amended.  On a list of non-negative sequence numbers, the only
    emitted range that can hold the value 0 is [(0, 0)], and [(0, 0)] is
    emitted exactly when the input ends in 0.  So when the input holds a 0
    and does not end in 0, no emitted range holds 0 and the emitted ranges
    do not cover the input.  A leading 0 leaves the run unopened and the
    next element opens it. *)
Theorem batch_zero_sentinel :
  (forall l : list int32,
      Forall (fun x => 0 <= x <= max_int32) l ->
      (forall r, In r (batch l) -> in_range 0 r ->
                 r = (0, 0) /\ last l 1 = 0) /\
      (In (0, 0) (batch l) <-> last l 1 = 0) /\
      (In 0 l -> last l 1 <> 0 ->
       ~ exists r, In r (batch l) /\ in_range 0 r)) /\
  (forall (x : int32) (l : list int32), batch (0 :: x :: l) = batch (x :: l)).
Proof.
  split.
  - intros l Hall.
    assert (H : (forall r, In r (batch l) -> in_range 0 r ->
                           r = (0, 0) /\ last l 1 = 0) /\
                (last l 1 = 0 -> In (0, 0) (batch l))).
    { destruct l as [|x l].
      - simpl. split; [intros r []|lia].
      - rewrite batch_cons, last_cons_default.
        inversion Hall as [|? ? Hx Hall']; subst. cbv beta in Hx.
        apply runs_from_zero; auto. lia. }
    destruct H as [H1 H2]. split; [exact H1|]. split; [split|].
    + intros Hin. apply (H1 (0, 0) Hin). unfold in_range. simpl. lia.
    + exact H2.
    + intros _ Hlast [r [Hr H0]]. apply Hlast. apply (H1 r Hr H0).
  - intros x l. rewrite !batch_cons. reflexivity.
Qed.

Lemma batch_zero_sentinel_witness :
  (Forall (fun x => 0 <= x <= max_int32) [0; 4; 5; 9] /\
   In 0 [0; 4; 5; 9] /\
   ~ exists r, In r (batch [0; 4; 5; 9]) /\ in_range 0 r) /\
  (last [4; 5; 0] 1 = 0 /\ In (0, 0) (batch [4; 5; 0])).
Proof.
  assert (H : Forall (fun x => 0 <= x <= max_int32) [0; 4; 5; 9]).
  { repeat constructor; unfold max_int32; lia. }
  assert (H' : Forall (fun x => 0 <= x <= max_int32) [4; 5; 0]).
  { repeat constructor; unfold max_int32; lia. }
  split.
  - split; [exact H|]. split; [simpl; auto|].
    apply (proj2 (proj2 (proj1 batch_zero_sentinel [0; 4; 5; 9] H))).
    + simpl. auto.
    + simpl. lia.
  - split; [reflexivity|].
    apply (proj2 (proj1 (proj2 (proj1 batch_zero_sentinel [4; 5; 0] H')))).
    reflexivity.
Defined.

(** C10 as stated fails: the input [[0]] is emitted as the range [(0, 0)],
    which holds its element 0; so does a 0 that ends a longer input, and a 0
    inside a run that starts below it. *)
Lemma batch_zero_emitted :
  (In 0 [0] /\ In (0, 0) (batch [0]) /\ in_range 0 (0, 0)) /\
  batch [5; 0] = [(5, 5); (0, 0)] /\
  batch [-1; 0; 1] = [(-1, 1)].
Proof.
  repeat split; simpl; auto; unfold in_range; simpl; lia.
Qed.

(** ** Refreshing the state *)

Section IngesterFacts.
Context {W P Err : Type}.
Variable env : Collaborators W P Err.

Local Abbreviation State := (St W P Err).

(** [updateLedgerState], query by query. *)
Lemma updateLedgerState_eq (st : State) :
  updateLedgerState env st =
  match core_LatestLedger env (world st) with
  | (w1, EPanic p) => Panicked p (mkSt (sys st) w1 (events st))
  | (w1, ERet (inl e)) => Done (Some e) (mkSt (sys st) w1 (events st))
  | (w1, ERet (inr c)) =>
      let i := mkSystem c (historySequence (sys st)) in
      match history_LatestLedger env w1 with
      | (w2, EPanic p) => Panicked p (mkSt i w2 (events st))
      | (w2, ERet (inl e)) => Done (Some e) (mkSt i w2 (events st))
      | (w2, ERet (inr h)) => Done None (mkSt (mkSystem c h) w2 (events st))
      end
  end.
Proof.
  unfold updateLedgerState, bind, query.
  destruct (core_LatestLedger env (world st)) as [w1 [[e|c]|p]]; simpl;
    try reflexivity.
  destruct (history_LatestLedger env w1) as [w2 [[e|h]|p]]; reflexivity.
Qed.

(** A refresh runs no session and logs nothing. *)
Lemma updateLedgerState_events (st st' : State) (err : error Err) :
  updateLedgerState env st = Done err st' -> events st' = events st.
Proof.
  rewrite updateLedgerState_eq.
  destruct (core_LatestLedger env (world st)) as [w1 [[e|c]|p]];
    try discriminate.
  - intros H. inversion H. reflexivity.
  - simpl. destruct (history_LatestLedger env w1) as [w2 [[e|h]|p]];
      try discriminate; intros H; inversion H; reflexivity.
Qed.

(** [ReingestRange] is the run of one session, built from the fields. *)
Lemma ReingestRange_eq (start end_ : int32) (st : State) :
  ReingestRange env start end_ st =
  Run env (mkSession (add32 (historySequence (sys st)) 1)
             (coreSequence (sys st)) (CurrentVersion env) true) st.
Proof.
  unfold ReingestRange, get_sys, bind, NewSession, setClearExisting. simpl.
  match goal with |- context [Run env ?s st] => destruct (Run env s st) as [[k err] st'| |] end;
    reflexivity.
Qed.

Lemma Run_eq (is_ : Session) (st : State) :
  Run env is_ st =
  match session_Run env is_ (world st) with
  | (w', ERet r) =>
      Done r (mkSt (sys st) w' (events st ++ [EvSession is_ (ERet r)]))
  | (w', EPanic p) =>
      Panicked p (mkSt (sys st) w' (events st ++ [EvSession is_ (EPanic p)]))
  end.
Proof.
  unfold Run. destruct (session_Run env is_ (world st)) as [w' [r|p]];
    reflexivity.
Qed.
End IngesterFacts.

(** ** The driver and its callers *)

(** C1.  [ReingestRange] never reads [start] and [end]: whatever range it
    is called with, the one session it runs goes from [historySequence + 1]
    to [coreSequence], with [ClearExisting] set, and it gives back that
    session's count and error.  Asked for [[5, 7]] with the stores at 100
    and 40, it runs a session over [[41, 100]]. *)
Theorem ReingestRange_session_range :
  (forall (W P Err : Type) (env : Collaborators W P Err)
          (start end_ : int32) (st : St W P Err),
      ReingestRange env start end_ st =
      Run env (mkSession (add32 (historySequence (sys st)) 1)
                 (coreSequence (sys st)) (CurrentVersion env) true) st) /\
  ReingestRange Stub.catchup 5 7 Stub.behind_refreshed =
  Done (60, None)
    (mkSt (mkSystem 100 40) (Stub.mkStores 100 100)
       [EvSession (mkSession 41 100 7 true) (ERet (60, None))]).
Proof.
  split.
  - intros. apply ReingestRange_eq.
  - reflexivity.
Qed.

(** C4.  [ReingestAll] refreshes first and gives [(0, err)] when the
    refresh fails; otherwise it calls [ReingestRange 1 coreSequence] once
    and returns what that returns.  The session this runs does not start at
    1: with the stores at 100 and 40 it covers [[41, 100]]. *)
Theorem ReingestAll_session_range :
  (forall (W P Err : Type) (env : Collaborators W P Err) (st : St W P Err),
      ReingestAll env st =
      match updateLedgerState env st with
      | Done (Some e) st' => Done (0, Some e) st'
      | Done None st' => ReingestRange env 1 (coreSequence (sys st')) st'
      | Panicked p st' => Panicked p st'
      | OutOfFuel => OutOfFuel
      end) /\
  ReingestAll Stub.catchup Stub.behind =
  Done (60, None)
    (mkSt (mkSystem 100 40) (Stub.mkStores 100 100)
       [EvSession (mkSession 41 100 7 true) (ERet (60, None))]).
Proof.
  split.
  - intros. unfold ReingestAll, bind.
    destruct (updateLedgerState env st) as [[e|] st'| |]; reflexivity.
  - reflexivity.
Qed.


(** ** One pass of the poller *)

Section PollerFacts.
Context {W P Err : Type}.
Variable env : Collaborators W P Err.

Local Abbreviation State := (St W P Err).

(** The session a catch-up pass builds from the refreshed fields. *)
Lemma runOnce_pass_eq (st : State) :
  runOnce_pass env st =
  match updateLedgerState env st with
  | Done (Some e) st1 =>
      Done (Return tt)
        (mkSt (sys st1) (world st1)
           (events st1 ++ [EvLog Error (MsgStateFailed e)]))
  | Done None st1 =>
      if historySequence (sys st1) >=? coreSequence (sys st1)
      then Done (Return tt) st1
      else
        let is_ := mkSession (add32 (historySequence (sys st1)) 1)
                     (coreSequence (sys st1)) (CurrentVersion env) false in
        match session_Run env is_ (world st1) with
        | (w', ERet (k, Some e)) =>
            Done (Return tt)
              (mkSt (sys st1) w'
                 ((events st1 ++ [EvSession is_ (ERet (k, Some e))])
                    ++ [EvLog Error (MsgSessionFailed e)]))
        | (w', ERet (k, None)) =>
            Done (if k =? 0 then Return tt else Continue)
              (mkSt (sys st1) w'
                 (events st1 ++ [EvSession is_ (ERet (k, None))]))
        | (w', EPanic p) =>
            Panicked p
              (mkSt (sys st1) w' (events st1 ++ [EvSession is_ (EPanic p)]))
        end
  | Panicked p st1 => Panicked p st1
  | OutOfFuel => OutOfFuel
  end.
Proof.
  unfold runOnce_pass, bind.
  destruct (updateLedgerState env st) as [[e|] st1| |]; try reflexivity.
  unfold get_sys.
  destruct (historySequence (sys st1) >=? coreSequence (sys st1));
    [reflexivity|].
  unfold NewSession. rewrite Run_eq. cbv zeta.
  match goal with
  | |- context [session_Run env ?s ?w] =>
      destruct (session_Run env s w) as [w' [[k [e|]]|p]]
  end; try reflexivity.
  destruct (k =? 0); reflexivity.
Qed.

Lemma runOnce_loop_S (fuel : nat) (st : State) :
  runOnce_loop env (S fuel) st =
  match runOnce_pass env st with
  | Done Continue st' => runOnce_loop env fuel st'
  | Done (Return _) st' => Done tt st'
  | Panicked p st' => Panicked p st'
  | OutOfFuel => OutOfFuel
  end.
Proof.
  simpl. unfold bind.
  destruct (runOnce_pass env st) as [[|[]] st'| |]; reflexivity.
Qed.

Lemma runOnce_not_Panicked (fuel : nat) (st : State) p s :
  runOnce env fuel st <> Panicked p s.
Proof.
  unfold runOnce, with_recover.
  destruct (runOnce_loop env fuel st) as [a s0|[rec|] s0|]; discriminate.
Qed.

Lemma run_not_Panicked (ticks fuel : nat) :
  forall (st : State) p s, run env ticks fuel st <> Panicked p s.
Proof.
  induction ticks as [|ticks IH]; intros st p s; simpl.
  - discriminate.
  - unfold bind, log, emit.
    match goal with
    | |- context [runOnce env fuel ?st0] =>
        pose proof (runOnce_not_Panicked fuel st0) as Hno;
        destruct (runOnce env fuel st0) as [[] st1|p1 s1|]
    end.
    + apply IH.
    + exfalso. apply (Hno p1 s1). reflexivity.
    + discriminate.
Qed.
End PollerFacts.

(** C2, amended.  [updateLedgerState] stores each sequence as soon as its
    query succeeds.  When the source query fails, both fields keep their
    values and the history query is not made; when the history query fails,
    [historySequence] keeps its value but [coreSequence] already holds the
    value just read; when both succeed both fields are overwritten.  In
    either failure the error is returned, and [runOnce] logs it and returns
    without running a session. *)
Theorem updateLedgerState_field_by_field :
  forall (W P Err : Type) (env : Collaborators W P Err) (st : St W P Err),
    (forall w1 e,
        core_LatestLedger env (world st) = (w1, ERet (inl e)) ->
        updateLedgerState env st = Done (Some e) (mkSt (sys st) w1 (events st))) /\
    (forall w1 c w2 e,
        core_LatestLedger env (world st) = (w1, ERet (inr c)) ->
        history_LatestLedger env w1 = (w2, ERet (inl e)) ->
        updateLedgerState env st =
        Done (Some e)
          (mkSt (mkSystem c (historySequence (sys st))) w2 (events st))) /\
    (forall w1 c w2 h,
        core_LatestLedger env (world st) = (w1, ERet (inr c)) ->
        history_LatestLedger env w1 = (w2, ERet (inr h)) ->
        updateLedgerState env st =
        Done None (mkSt (mkSystem c h) w2 (events st))) /\
    (forall e st' fuel,
        updateLedgerState env st = Done (Some e) st' ->
        runOnce env (S fuel) st =
        Done tt
          (mkSt (sys st') (world st')
             (events st ++ [EvLog Error (MsgStateFailed e)]))).
Proof.
  intros W P Err env st. repeat split.
  - intros w1 e H1. rewrite updateLedgerState_eq, H1. reflexivity.
  - intros w1 c w2 e H1 H2. rewrite updateLedgerState_eq, H1. simpl.
    rewrite H2. reflexivity.
  - intros w1 c w2 h H1 H2. rewrite updateLedgerState_eq, H1. simpl.
    rewrite H2. reflexivity.
  - intros e st' fuel H.
    unfold runOnce, with_recover. rewrite runOnce_loop_S, runOnce_pass_eq, H.
    rewrite (updateLedgerState_events env st st' (Some e) H). reflexivity.
Qed.

Lemma updateLedgerState_field_by_field_witness :
  updateLedgerState Stub.scripted Stub.history_down =
  Done (Some (Stub.Failure 1))
    (mkSt (mkSystem 100 5) (world Stub.history_down) []) /\
  runOnce Stub.scripted 1 Stub.core_down =
  Done tt
    (mkSt (mkSystem 10 5) (world Stub.core_down)
       [EvLog Error (MsgStateFailed (Stub.Failure 2))]).
Proof.
  split.
  - apply (proj1 (proj2 (updateLedgerState_field_by_field
                           _ _ _ Stub.scripted Stub.history_down))
             (world Stub.history_down) 100 (world Stub.history_down)
             (Stub.Failure 1)); reflexivity.
  - apply (proj2 (proj2 (proj2 (updateLedgerState_field_by_field
                                  _ _ _ Stub.scripted Stub.core_down)))
             (Stub.Failure 2) Stub.core_down 0%nat).
    reflexivity.
Defined.

(** C2 as stated fails: the source store answers 100 and the history store
    fails; the refresh returns the error, and [coreSequence], 10 before the
    call, is 100 after it. *)
Lemma updateLedgerState_partial_update :
  exists e st',
    updateLedgerState Stub.scripted Stub.history_down = Done (Some e) st' /\
    sys Stub.history_down = mkSystem 10 5 /\
    sys st' = mkSystem 100 5 /\
    sys st' <> sys Stub.history_down.
Proof.
  eexists. eexists. split; [reflexivity|].
  repeat split. simpl. discriminate.
Qed.

(** C6.  After a successful refresh a pass of [runOnce] returns without a
    session when [historySequence >= coreSequence]; otherwise it runs one
    session from [historySequence + 1] to [coreSequence], returns when the
    session gives an error or ingests nothing, and goes round again, to a
    new refresh, exactly when the session ingested a positive count.  With
    the stores at 100 and 40 and a session that ingests all it is asked for,
    one [runOnce] brings history to 100 with a single session over
    [[41, 100]], and the next [runOnce] runs no session and returns. *)
Theorem runOnce_catches_up :
  (forall (W P Err : Type) (env : Collaborators W P Err) (st st1 : St W P Err),
      updateLedgerState env st = Done None st1 ->
      (historySequence (sys st1) >= coreSequence (sys st1) ->
       runOnce_pass env st = Done (Return tt) st1) /\
      (historySequence (sys st1) < coreSequence (sys st1) ->
       forall w' k err,
         session_Run env
           (mkSession (add32 (historySequence (sys st1)) 1)
              (coreSequence (sys st1)) (CurrentVersion env) false)
           (world st1) = (w', ERet (k, err)) ->
         exists c st2,
           runOnce_pass env st = Done c st2 /\
           sys st2 = sys st1 /\ world st2 = w' /\
           sessions (events st2) =
           sessions (events st1) ++
             [mkSession (add32 (historySequence (sys st1)) 1)
                (coreSequence (sys st1)) (CurrentVersion env) false] /\
           (err <> None -> c = Return tt) /\
           (err = None -> k = 0 -> c = Return tt) /\
           (0 <= k -> (c = Continue <-> err = None /\ 0 < k)))) /\
  (forall (W P Err : Type) (env : Collaborators W P Err) (st st2 : St W P Err)
          (fuel : nat),
      (runOnce_pass env st = Done Continue st2 ->
       runOnce_loop env (S fuel) st = runOnce_loop env fuel st2) /\
      (runOnce_pass env st = Done (Return tt) st2 ->
       runOnce_loop env (S fuel) st = Done tt st2)) /\
  runOnce Stub.catchup 2 Stub.behind =
  Done tt
    (mkSt (mkSystem 100 100) (Stub.mkStores 100 100)
       [EvSession (mkSession 41 100 7 false) (ERet (60, None))]) /\
  runOnce Stub.catchup 1
    (mkSt (mkSystem 100 100) (Stub.mkStores 100 100)
       [EvSession (mkSession 41 100 7 false) (ERet (60, None))]) =
  Done tt
    (mkSt (mkSystem 100 100) (Stub.mkStores 100 100)
       [EvSession (mkSession 41 100 7 false) (ERet (60, None))]).
Proof.
  split; [|split; [|split; reflexivity]].
  - intros W P Err env st st1 Hup. split.
    + intros Hge. rewrite runOnce_pass_eq, Hup.
      destruct (Z.geb_spec (historySequence (sys st1)) (coreSequence (sys st1)));
        [reflexivity|lia].
    + intros Hlt w' k err Hrun. rewrite runOnce_pass_eq, Hup.
      destruct (Z.geb_spec (historySequence (sys st1)) (coreSequence (sys st1)));
        [lia|].
      cbv zeta. rewrite Hrun. unfold sessions.
      destruct err as [e|].
      * eexists. eexists. split; [reflexivity|]. simpl.
        rewrite !flat_map_app. simpl. rewrite app_nil_r.
        repeat split; try congruence.
        intros [Hn _]. discriminate.
      * eexists. eexists. split; [reflexivity|]. simpl.
        rewrite !flat_map_app. simpl.
        repeat split; try congruence.
        -- intros _ ->. reflexivity.
        -- destruct (Z.eqb_spec k 0); [discriminate|lia].
        -- intros [_ Hk]. destruct (Z.eqb_spec k 0); [lia|reflexivity].
  - intros W P Err env st st2 fuel. split; intros H;
      rewrite runOnce_loop_S, H; reflexivity.
Qed.

Lemma runOnce_catches_up_witness :
  exists c st2,
    runOnce_pass Stub.catchup Stub.behind = Done c st2 /\
    sys st2 = mkSystem 100 40 /\ world st2 = Stub.mkStores 100 100 /\
    sessions (events st2) = [mkSession 41 100 7 false] /\
    (c = Continue <-> @None Stub.Err = None /\ 0 < 60).
Proof.
  destruct (proj2 (proj1 runOnce_catches_up _ _ _ Stub.catchup Stub.behind
                     Stub.behind_refreshed eq_refl)
              ltac:(simpl; lia) (Stub.mkStores 100 100) 60 None eq_refl)
    as [c [st2 [H1 [H2 [H3 [H4 [_ [_ H5]]]]]]]].
  exists c, st2. repeat split; auto; apply H5; lia.
Defined.

(** C8, amended.  A panic anywhere in the body of [runOnce] stops at its
    deferred function, and [runOnce] returns normally: no panic leaves
    [runOnce] or [run], and after an iteration that panicked [run] serves the
    remaining ticks, each with a new [runOnce].  When the panic's value is
    not [nil] it is turned into an error by [FromPanic], logged, and sent to
    the crash reporter; when it is [nil] nothing is logged and nothing is
    reported. *)
Theorem runOnce_contains_panics :
  forall (W P Err : Type) (env : Collaborators W P Err)
         (fuel : nat) (st : St W P Err),
    (forall p s, runOnce env fuel st <> Panicked p s) /\
    (forall rec s,
        runOnce_loop env fuel st = Panicked (Some rec) s ->
        runOnce env fuel st =
        Done tt
          (mkSt (sys s) (world s)
             (events s ++ [EvLog Error (MsgSessionPanicked (FromPanic env rec));
                           EvSentry (FromPanic env rec)]))) /\
    (forall s,
        runOnce_loop env fuel st = Panicked None s ->
        runOnce env fuel st = Done tt s) /\
    (forall ticks p s, run env ticks fuel st <> Panicked p s) /\
    (forall ticks rec s,
        runOnce_loop env fuel
          (mkSt (sys st) (world st) (events st ++ [EvLog Debug MsgTicking]))
        = Panicked (Some rec) s ->
        run env (S ticks) fuel st =
        run env ticks fuel
          (mkSt (sys s) (world s)
             (events s ++ [EvLog Error (MsgSessionPanicked (FromPanic env rec));
                           EvSentry (FromPanic env rec)]))) /\
    (forall ticks s,
        runOnce_loop env fuel
          (mkSt (sys st) (world st) (events st ++ [EvLog Debug MsgTicking]))
        = Panicked None s ->
        run env (S ticks) fuel st = run env ticks fuel s).
Proof.
  intros W P Err env fuel st.
  assert (Hrec : forall st0 rec s,
             runOnce_loop env fuel st0 = Panicked (Some rec) s ->
             runOnce env fuel st0 =
             Done tt
               (mkSt (sys s) (world s)
                  (events s ++
                     [EvLog Error (MsgSessionPanicked (FromPanic env rec));
                      EvSentry (FromPanic env rec)]))).
  { intros st0 rec s H. unfold runOnce, with_recover. rewrite H.
    unfold recovered, bind, log, ReportToSentry, emit. simpl.
    rewrite <- app_assoc. reflexivity. }
  assert (Hnil : forall st0 s,
             runOnce_loop env fuel st0 = Panicked None s ->
             runOnce env fuel st0 = Done tt s).
  { intros st0 s H. unfold runOnce, with_recover. rewrite H. reflexivity. }
  repeat split.
  - intros p s. apply runOnce_not_Panicked.
  - apply Hrec.
  - apply Hnil.
  - intros ticks p s. apply run_not_Panicked.
  - intros ticks rec s H. simpl. unfold bind at 1. unfold log, emit.
    unfold bind at 1. rewrite (Hrec _ rec s H). reflexivity.
  - intros ticks s H. simpl. unfold bind at 1. unfold log, emit.
    unfold bind at 1. rewrite (Hnil _ s H). reflexivity.
Qed.

Lemma runOnce_contains_panics_witness :
  runOnce Stub.scripted 1 Stub.session_panics =
  Done tt
    (mkSt (mkSystem 100 40) (Stub.mkScript (inr 100) (inr 40) [] [])
       [EvSession (mkSession 41 100 7 false) (EPanic (Some 13));
        EvLog Error (MsgSessionPanicked (Stub.PanicError 13));
        EvSentry (Stub.PanicError 13)]) /\
  run Stub.scripted 3 1 Stub.session_panics_nil =
  run Stub.scripted 2 1
    (mkSt (mkSystem 100 40) (Stub.mkScript (inr 100) (inr 40) [] [])
       [EvLog Debug MsgTicking;
        EvSession (mkSession 41 100 7 false) (EPanic None)]).
Proof.
  split.
  - apply (proj1 (proj2 (runOnce_contains_panics
                           _ _ _ Stub.scripted 1 Stub.session_panics))
             13
             (mkSt (mkSystem 100 40) (Stub.mkScript (inr 100) (inr 40) [] [])
                [EvSession (mkSession 41 100 7 false) (EPanic (Some 13))])).
    reflexivity.
  - apply (proj2 (proj2 (proj2 (proj2 (proj2 (runOnce_contains_panics
                           _ _ _ Stub.scripted 1 Stub.session_panics_nil)))))
             2%nat
             (mkSt (mkSystem 100 40) (Stub.mkScript (inr 100) (inr 40) [] [])
                [EvLog Debug MsgTicking;
                 EvSession (mkSession 41 100 7 false) (EPanic None)])).
    reflexivity.
Defined.

(** C8 as stated fails: the session panics with [nil]; the panic is stopped
    and [runOnce] returns, but no error line is logged and nothing is sent
    to the crash reporter. *)
Lemma runOnce_nil_panic_unreported :
  runOnce_loop Stub.scripted 1 Stub.session_panics_nil =
  Panicked None
    (mkSt (mkSystem 100 40) (Stub.mkScript (inr 100) (inr 40) [] [])
       [EvSession (mkSession 41 100 7 false) (EPanic None)]) /\
  runOnce Stub.scripted 1 Stub.session_panics_nil =
  Done tt
    (mkSt (mkSystem 100 40) (Stub.mkScript (inr 100) (inr 40) [] [])
       [EvSession (mkSession 41 100 7 false) (EPanic None)]) /\
  reports
    [@EvSession Stub.PanicVal Stub.Err (mkSession 41 100 7 false) (EPanic None)]
  = [].
Proof.
  repeat split.
Qed.

(** ** The sweep *)

Lemma ok_counts_app {P Err} (a b : list (Event P Err)) :
  ok_counts (a ++ b) = ok_counts a ++ ok_counts b.
Proof. unfold ok_counts. apply flat_map_app. Qed.

Lemma add_counts_app (n : Z) (a b : list Z) :
  add_counts n (a ++ b) = add_counts (add_counts n a) b.
Proof. unfold add_counts. apply fold_left_app. Qed.

Section SweepFacts.
Context {W P Err : Type}.
Variable env : Collaborators W P Err.

Local Abbreviation State := (St W P Err).

Lemma flush_eq (start end_ : int32) (n : Z) (st : State) :
  flush env start end_ n st =
  match session_Run env (driver_session env st) (world st) with
  | (w', ERet (k, None)) =>
      Done (add_int n k, None)
        (mkSt (sys st) w'
           (events st ++ [EvSession (driver_session env st) (ERet (k, None))]))
  | (w', ERet (k, Some e)) =>
      Done (n, Some e)
        (mkSt (sys st) w'
           (events st ++ [EvSession (driver_session env st) (ERet (k, Some e))]))
  | (w', EPanic p) =>
      Panicked p
        (mkSt (sys st) w'
           (events st ++ [EvSession (driver_session env st) (EPanic p)]))
  end.
Proof.
  unfold flush, bind. rewrite ReingestRange_eq, Run_eq.
  fold (driver_session env st).
  destruct (session_Run env (driver_session env st) (world st))
    as [w' [[k [e|]]|p]]; reflexivity.
Qed.

(** What a run over a list of ranges leaves in the trace: one session per
    range, all of them successful but possibly the last, at which the run
    stopped; the count grows by the successful ones only. *)
Lemma run_ranges_trace (rs : list Range) :
  forall n st n' err st',
    run_ranges (flush env) rs n st = Done (n', err) st' ->
    exists evs,
      events st' = events st ++ evs /\
      n' = add_counts n (ok_counts evs) /\
      match err with
      | None =>
          length evs = length rs /\ length (ok_counts evs) = length rs
      | Some e =>
          exists evs0 is_ k,
            evs = evs0 ++ [EvSession is_ (ERet (k, Some e))] /\
            length (ok_counts evs0) = length evs0 /\
            (length evs0 < length rs)%nat
      end.
Proof.
  induction rs as [|[s e] rs IH]; intros n st n' err st' H.
  - inversion H; subst. exists []. rewrite app_nil_r.
    repeat split; reflexivity.
  - cbn [run_ranges] in H. unfold bind in H. rewrite flush_eq in H.
    destruct (session_Run env (driver_session env st) (world st))
      as [w' [[k [x|]]|p]]; try discriminate.
    + inversion H; subst; clear H.
      exists [EvSession (driver_session env st) (ERet (k, Some x))].
      repeat split.
      exists [], (driver_session env st), k. simpl. repeat split. lia.
    + apply IH in H as [evs [Hev [Hn Herr]]]. simpl in Hev.
      exists (EvSession (driver_session env st) (ERet (k, None)) :: evs).
      split; [rewrite Hev, <- app_assoc; reflexivity|].
      split; [exact Hn|].
      destruct err as [x|].
      * destruct Herr as [evs0 [is_ [k0 [-> [Hok Hlen]]]]].
        exists (EvSession (driver_session env st) (ERet (k, None)) :: evs0), is_, k0.
        repeat split; simpl; [f_equal; exact Hok|lia].
      * destruct Herr as [H1 H2]. simpl. split; f_equal; assumption.
Qed.

(** [sweep_pass], query by query. *)
Lemma sweep_pass_eq (n : Z) (st : State) :
  sweep_pass env n st =
  match OldestOutdatedLedgers env (CurrentVersion env) (world st) with
  | (w', EPanic p) => Panicked p (mkSt (sys st) w' (events st))
  | (w', ERet (inl e)) =>
      Done (Return (n, Some e), n) (mkSt (sys st) w' (events st))
  | (w', ERet (inr [])) =>
      Done (Return (n, None), n) (mkSt (sys st) w' (events st))
  | (w', ERet (inr (x :: l))) =>
      match run_ranges (flush env) (batch (x :: l)) n
              (mkSt (sys st) w'
                 (events st ++
                    [EvLog Info (MsgOutdated x (Z.of_nat (length (x :: l))))]))
      with
      | Done (n', Some e) st' => Done (Return (n', Some e), n') st'
      | Done (n', None) st' => Done (Continue, n') st'
      | Panicked p st' => Panicked p st'
      | OutOfFuel => OutOfFuel
      end
  end.
Proof.
  unfold sweep_pass, bind at 1, query.
  destruct (OldestOutdatedLedgers env (CurrentVersion env) (world st))
    as [w' [[e|[|x l]]|p]]; try reflexivity.
  unfold bind at 1, log, emit. cbn [sys world events].
  unfold bind. rewrite process_batch_run_ranges.
  match goal with
  | |- context [run_ranges ?f ?rs ?n ?s] =>
      destruct (run_ranges f rs n s) as [[n' [e|]] st'| |]
  end; reflexivity.
Qed.

Lemma sweep_loop_S (fuel : nat) (n : Z) (st : State) :
  sweep_loop env (S fuel) n st =
  match sweep_pass env n st with
  | Done (Return r, _) st' => Done r st'
  | Done (Continue, n') st' => sweep_loop env fuel n' st'
  | Panicked p st' => Panicked p st'
  | OutOfFuel => OutOfFuel
  end.
Proof.
  simpl. unfold bind.
  destruct (sweep_pass env n st) as [[[|r] n'] st'| |]; reflexivity.
Qed.

(** What one pass leaves behind when it returns. *)
Lemma sweep_pass_trace (n : Z) (st : State) c n' st' :
  sweep_pass env n st = Done (c, n') st' ->
  (exists evs,
      events st' = events st ++ evs /\
      n' = add_counts n (ok_counts evs)) /\
  match c with
  | Continue => True
  | Return (m, None) =>
      m = n' /\
      exists w0,
        OldestOutdatedLedgers env (CurrentVersion env) w0
        = (world st', ERet (inr []))
  | Return (m, Some e) =>
      m = n' /\
      ((exists w0,
           OldestOutdatedLedgers env (CurrentVersion env) w0
           = (world st', ERet (inl e))) \/
       (exists evs0 is_ k,
           events st' = evs0 ++ [EvSession is_ (ERet (k, Some e))]))
  end.
Proof.
  rewrite sweep_pass_eq.
  destruct (OldestOutdatedLedgers env (CurrentVersion env) (world st))
    as [w' [[e|[|x l]]|p]] eqn:Hq; try discriminate.
  - intros H; inversion H; subst; clear H. split.
    + exists []. rewrite app_nil_r. split; reflexivity.
    + split; [reflexivity|]. left. exists (world st). exact Hq.
  - intros H; inversion H; subst; clear H. split.
    + exists []. rewrite app_nil_r. split; reflexivity.
    + split; [reflexivity|]. exists (world st). exact Hq.
  - match goal with
    | |- context [run_ranges ?f ?rs ?n ?s] =>
        destruct (run_ranges f rs n s) as [[m [e|]] st1| |] eqn:Hrun
    end; try discriminate;
      intros H; inversion H; subst; clear H;
      apply run_ranges_trace in Hrun as [evs [Hev [Hn Herr]]];
      simpl in Hev.
    + split.
      * eexists. split; [rewrite Hev, <- app_assoc; reflexivity|].
        simpl. exact Hn.
      * split; [reflexivity|]. right.
        destruct Herr as [evs0 [is_ [k [-> _]]]].
        eexists. exists is_, k. rewrite Hev, !app_assoc. reflexivity.
    + split; [|exact I].
      eexists. split; [rewrite Hev, <- app_assoc; reflexivity|].
      simpl. exact Hn.
Qed.

(** The same for the whole sweep. *)
Lemma sweep_loop_trace (fuel : nat) :
  forall n st n' err st',
    sweep_loop env fuel n st = Done (n', err) st' ->
    (exists evs,
        events st' = events st ++ evs /\
        n' = add_counts n (ok_counts evs)) /\
    match err with
    | None =>
        exists w0,
          OldestOutdatedLedgers env (CurrentVersion env) w0
          = (world st', ERet (inr []))
    | Some e =>
        (exists w0,
            OldestOutdatedLedgers env (CurrentVersion env) w0
            = (world st', ERet (inl e))) \/
        (exists evs0 is_ k,
            events st' = evs0 ++ [EvSession is_ (ERet (k, Some e))])
    end.
Proof.
  induction fuel as [|fuel IH]; intros n st n' err st' H; [discriminate|].
  rewrite sweep_loop_S in H.
  destruct (sweep_pass env n st) as [[[|[m r]] n1] st1| |] eqn:Hpass;
    try discriminate.
  - apply sweep_pass_trace in Hpass as [[evs1 [Hev1 Hn1]] _].
    apply IH in H as [[evs2 [Hev2 Hn2]] Herr]. split; [|exact Herr].
    exists (evs1 ++ evs2). split.
    + rewrite Hev2, Hev1, app_assoc. reflexivity.
    + rewrite ok_counts_app, add_counts_app, <- Hn1. exact Hn2.
  - inversion H; subst; clear H.
    apply sweep_pass_trace in Hpass as [Hacc Hret].
    destruct err as [e|]; destruct Hret as [-> Hret]; split; auto.
Qed.
End SweepFacts.



(** C9.  When the session's run gives an error, [ReingestRange] still
    returns the count read from the session next to it; the [flush] closure
    of the sweep then returns the error without adding that count.  The
    total a sweep returns is the sum of the counts of the session runs that
    returned without error.  In a page of three ranges whose second run
    fails after ingesting one ledger, the driver reports [(1, err)] and the
    sweep returns the 3 of the first run. *)
Theorem failed_range_count_dropped :
  (forall (W P Err : Type) (env : Collaborators W P Err)
          (start end_ : int32) (st : St W P Err) w' k e,
      session_Run env (driver_session env st) (world st)
      = (w', ERet (k, Some e)) ->
      ReingestRange env start end_ st =
      Done (k, Some e)
        (mkSt (sys st) w'
           (events st ++ [EvSession (driver_session env st) (ERet (k, Some e))]))
      /\
      forall n,
        flush env start end_ n st =
        Done (n, Some e)
          (mkSt (sys st) w'
             (events st ++
                [EvSession (driver_session env st) (ERet (k, Some e))]))) /\
  (forall (W P Err : Type) (env : Collaborators W P Err)
          (fuel : nat) (st : St W P Err) n' err st',
      ReingestOutdated env fuel st = Done (n', err) st' ->
      exists evs,
        events st' = events st ++ evs /\
        n' = add_counts 0 (ok_counts evs)) /\
  ReingestOutdated Stub.scripted 1 Stub.second_range_fails =
  Done (3, Some (Stub.Failure 3))
    (mkSt (mkSystem 100 100)
       (Stub.mkScript (inr 100) (inr 100) [] [ERet (2, None)])
       [EvLog Info (MsgOutdated 3 6);
        EvSession (mkSession 101 100 7 true) (ERet (3, None));
        EvSession (mkSession 101 100 7 true) (ERet (1, Some (Stub.Failure 3)))]).
Proof.
  split; [|split; [|reflexivity]].
  - intros W P Err env start end_ st w' k e H. split.
    + rewrite ReingestRange_eq, Run_eq. fold (driver_session env st).
      rewrite H. reflexivity.
    + intros n. rewrite flush_eq, H. reflexivity.
  - intros W P Err env fuel st n' err st' H.
    apply (sweep_loop_trace env fuel 0 st n' err st' H).
Qed.

Lemma failed_range_count_dropped_witness :
  ReingestRange Stub.scripted 8 8
    (mkSt (mkSystem 100 100)
       (Stub.mkScript (inr 100) (inr 100) []
          [ERet (1, Some (Stub.Failure 3)); ERet (2, None)])
       []) =
  Done (1, Some (Stub.Failure 3))
    (mkSt (mkSystem 100 100)
       (Stub.mkScript (inr 100) (inr 100) [] [ERet (2, None)])
       [EvSession (mkSession 101 100 7 true) (ERet (1, Some (Stub.Failure 3)))]).
Proof.
  apply (proj1 (proj1 failed_range_count_dropped _ _ _ Stub.scripted 8 8
                  (mkSt (mkSystem 100 100)
                     (Stub.mkScript (inr 100) (inr 100) []
                        [ERet (1, Some (Stub.Failure 3)); ERet (2, None)])
                     [])
                  (Stub.mkScript (inr 100) (inr 100) [] [ERet (2, None)])
                  1 (Stub.Failure 3) eq_refl)).
Defined.

(** * Further properties of the batching loop *)

Lemma add32_pos_neq (x e : Z) :
  1 <= x -> 1 <= e <= max_int32 -> x = add32 e 1 -> x = e + 1 /\ e < max_int32.
Proof.
  intros Hx He Heq.
  destruct (Z.eq_dec e max_int32) as [->|Hne].
  - rewrite add32_max in Heq. unfold min_int32 in Heq. lia.
  - rewrite add32_succ in Heq by (unfold min_int32; lia). lia.
Qed.

(** On positive input in any order, the open run followed by what is left
    is what the emitted ranges spell out. *)
Lemma runs_from_cover (l : list int32) :
  forall s e,
    1 <= s <= e -> e <= max_int32 ->
    Forall (fun x => 1 <= x <= max_int32) l ->
    Forall (fun r => 1 <= fst r <= snd r /\ snd r <= max_int32)
      (runs_from l s e) /\
    concat (map range_elems (runs_from l s e)) = range_elems (s, e) ++ l.
Proof.
  induction l as [|x l IH]; intros s e Hse He Hall; simpl.
  - split; [constructor; [simpl; lia|constructor]|reflexivity].
  - inversion Hall as [|? ? Hx Hall']; subst. cbv beta in Hx.
    destruct (Z.eqb_spec s 0) as [Hs0|_]; [lia|].
    destruct (Z.eqb_spec x (add32 e 1)) as [Hext|Hgap].
    + destruct (add32_pos_neq x e) as [-> Hlt]; try lia.
      destruct (IH s (e + 1)) as [H1 H2]; try lia; auto.
      split; [exact H1|].
      rewrite H2, range_elems_snoc by lia. rewrite <- app_assoc. reflexivity.
    + destruct (IH x x) as [H1 H2]; try lia; auto.
      split; [constructor; [simpl; lia|exact H1]|].
      simpl. rewrite H2, range_elems_single. reflexivity.
Qed.

(** X1.  On positive sequence numbers in any order, duplicates included,
    the batching step loses and invents nothing: every emitted range has
    [1 <= start <= end], and the ranges spelled out one after the other are
    the input list itself, in its order and with its repetitions. *)
Theorem batch_spells_input (l : list int32) :
  Forall (fun x => 1 <= x <= max_int32) l ->
  Forall (fun r => 1 <= fst r <= snd r /\ snd r <= max_int32) (batch l) /\
  concat (map range_elems (batch l)) = l.
Proof.
  intros Hall. destruct l as [|x l].
  - split; [constructor|reflexivity].
  - rewrite batch_cons.
    inversion Hall as [|? ? Hx Hall']; subst. cbv beta in Hx.
    destruct (runs_from_cover l x x) as [H1 H2]; try lia; auto.
    split; [exact H1|]. rewrite H2, range_elems_single. reflexivity.
Qed.

Lemma batch_spells_input_witness :
  concat (map range_elems (batch [4; 5; 5; 6; 2; 3; 9])) = [4; 5; 5; 6; 2; 3; 9] /\
  batch [4; 5; 5; 6; 2; 3; 9] = [(4, 5); (5, 6); (2, 3); (9, 9)].
Proof.
  split; [|reflexivity].
  apply (batch_spells_input [4; 5; 5; 6; 2; 3; 9]).
  repeat constructor; unfold max_int32; lia.
Defined.

Lemma range_elems_cons (s e : Z) :
  s <= e -> range_elems (s, e) = s :: range_elems (s + 1, e).
Proof.
  intros H. unfold range_elems. simpl.
  replace (Z.to_nat (e - s + 1)) with (S (Z.to_nat (e - (s + 1) + 1))) by lia.
  cbn [seq map]. f_equal; [lia|].
  rewrite <- seq_shift, map_map. apply map_ext. intros k. lia.
Qed.

Lemma range_elems_empty (s e : Z) : e < s -> range_elems (s, e) = [].
Proof.
  intros H. unfold range_elems. simpl.
  replace (Z.to_nat (e - s + 1)) with 0%nat by lia. reflexivity.
Qed.

(** Reading the rest of a range extends the open run to its end. *)
Lemma runs_from_extend (l : list int32) (s : Z) (m : nat) :
  forall e b,
    Z.to_nat (b - e) = m ->
    1 <= s <= e -> e <= b -> b <= max_int32 ->
    runs_from (range_elems (e + 1, b) ++ l) s e = runs_from l s b.
Proof.
  induction m as [|m IH]; intros e b Hm Hse Heb Hb.
  - assert (b = e) by lia. subst b.
    rewrite range_elems_empty by lia. reflexivity.
  - rewrite range_elems_cons by lia. cbn [app runs_from].
    destruct (Z.eqb_spec s 0) as [Hs0|_]; [lia|].
    rewrite add32_succ by (unfold min_int32; lia).
    rewrite Z.eqb_refl. apply IH; lia.
Qed.

Lemma runs_from_ranges (rs : list Range) :
  forall s e,
    1 <= s <= e -> e <= max_int32 ->
    Forall (fun r => 1 <= fst r <= snd r /\ snd r <= max_int32) rs ->
    unmergeable ((s, e) :: rs) ->
    runs_from (concat (map range_elems rs)) s e = (s, e) :: rs.
Proof.
  induction rs as [|[s2 e2] rs IH]; intros s e Hse He Hall Hun.
  - reflexivity.
  - inversion Hall as [|? ? Hr Hall']; subst. simpl in Hr.
    destruct Hun as [Hne Hun]. simpl in Hne.
    cbn [map concat]. rewrite range_elems_cons by lia. cbn [app runs_from].
    destruct (Z.eqb_spec s 0) as [Hs0|_]; [lia|].
    destruct (Z.eqb_spec s2 (add32 e 1)) as [Hext|_].
    { destruct (add32_pos_neq s2 e) as [Heq _]; try lia. }
    f_equal.
    rewrite (runs_from_extend _ s2 (Z.to_nat (e2 - s2)) s2 e2); try lia.
    apply IH; auto; lia.
Qed.

(** X2.  Batching undoes spelling out: for a list of ranges with
    [1 <= start <= end] in which no range starts right after the end of the
    one before it, the batching step applied to the sequence numbers of the
    ranges, one range after the other, gives the list of ranges back. *)
Theorem batch_of_spelled_ranges (rs : list Range) :
  Forall (fun r => 1 <= fst r <= snd r /\ snd r <= max_int32) rs ->
  unmergeable rs ->
  batch (concat (map range_elems rs)) = rs.
Proof.
  intros Hall Hun. destruct rs as [|[s e] rs]; [reflexivity|].
  inversion Hall as [|? ? Hr Hall']; subst. simpl in Hr.
  cbn [map concat]. rewrite range_elems_cons by lia. cbn [app].
  rewrite batch_cons.
  rewrite (runs_from_extend _ s (Z.to_nat (e - s)) s e); try lia.
  apply runs_from_ranges; auto; lia.
Qed.

Lemma batch_of_spelled_ranges_witness :
  batch (concat (map range_elems [(7, 9); (2, 2); (4, 6); (20, 21)])) =
  [(7, 9); (2, 2); (4, 6); (20, 21)].
Proof.
  apply (batch_of_spelled_ranges [(7, 9); (2, 2); (4, 6); (20, 21)]).
  - repeat constructor; unfold max_int32; simpl; lia.
  - simpl. repeat split; lia.
Defined.

Lemma runs_from_length (l : list int32) :
  forall s e,
    (1 <= length (runs_from l s e) <= 1 + length l)%nat.
Proof.
  induction l as [|x l IH]; intros s e; simpl; [lia|].
  destruct (s =? 0); [specialize (IH x x); lia|].
  destruct (x =? add32 e 1); [specialize (IH s x); lia|].
  specialize (IH x x). simpl. lia.
Qed.

Lemma runs_from_endpoints (l : list int32) :
  forall s e r,
    In r (runs_from l s e) ->
    (fst r = s \/ In (fst r) l) /\ (snd r = e \/ In (snd r) l).
Proof.
  induction l as [|x l IH]; intros s e r Hr; simpl in Hr.
  - destruct Hr as [<-|[]]. simpl. auto.
  - destruct (s =? 0).
    { destruct (IH x x r Hr) as [[H1|H1] [H2|H2]]; simpl; auto. }
    destruct (x =? add32 e 1).
    { destruct (IH s x r Hr) as [[H1|H1] [H2|H2]]; simpl; auto. }
    destruct Hr as [<-|Hr]; [simpl; auto|].
    destruct (IH x x r Hr) as [[H1|H1] [H2|H2]]; simpl; auto.
Qed.

Lemma runs_from_last (l : list int32) :
  forall s e d, snd (last (runs_from l s e) d) = last l e.
Proof.
  induction l as [|x l IH]; intros s e d.
  - reflexivity.
  - rewrite last_cons_default. simpl runs_from.
    destruct (s =? 0); [apply IH|].
    destruct (x =? add32 e 1); [apply IH|].
    rewrite last_cons_default. apply IH.
Qed.

(** X3.  Whatever the page holds, zeros, negative numbers and repetitions
    included, a non-empty page of [k] sequence numbers makes the sweep call
    the driver at least once and at most [k] times. *)
Theorem batch_call_count (l : list int32) :
  l <> [] -> (1 <= length (batch l) <= length l)%nat.
Proof.
  destruct l as [|x l]; [congruence|]. intros _.
  rewrite batch_cons. pose proof (runs_from_length l x x). simpl. lia.
Qed.

Lemma batch_call_count_witness :
  (1 <= length (batch [0; 0; -3; 8; 9; 0]%Z) <= 6)%nat.
Proof.
  apply (batch_call_count [0; 0; -3; 8; 9; 0]). discriminate.
Defined.

(** X4.  Whatever the page holds, the start and the end of every emitted
    range are numbers of the page, and the last emitted range ends at the
    last number of the page. *)
Theorem batch_endpoints_from_input (l : list int32) :
  (forall r, In r (batch l) -> In (fst r) l /\ In (snd r) l) /\
  (forall d, l <> [] -> snd (last (batch l) d) = last l 0).
Proof.
  destruct l as [|x l].
  - split; [intros r []|congruence].
  - rewrite batch_cons. split.
    + intros r Hr.
      destruct (runs_from_endpoints l x x r Hr) as [[H1|H1] [H2|H2]];
        simpl; auto.
    + intros d _. rewrite runs_from_last, last_cons_default. reflexivity.
Qed.

Lemma batch_endpoints_from_input_witness :
  snd (last (batch [3; 4; 9; 2]) (0, 0)) = last [3; 4; 9; 2] 0.
Proof.
  apply (proj2 (batch_endpoints_from_input [3; 4; 9; 2]) (0, 0)). discriminate.
Defined.

(** * Further properties of the sweep *)

Section SweepTrace.
Context {W P Err : Type}.
Variable env : Collaborators W P Err.

Local Abbreviation State := (St W P Err).

Lemma sweep_event_sys (st1 st : State) (ev : Event P Err) :
  sys st1 = sys st -> sweep_event env st1 ev -> sweep_event env st ev.
Proof.
  intros Hs. destruct ev as [s out| |]; simpl; auto.
  unfold driver_session. rewrite Hs. auto.
Qed.

(** A run over ranges never touches the two fields, and every session it
    runs is the one built from them. *)
Lemma run_ranges_end (rs : list Range) :
  forall n (st st' : State),
    end_state (run_ranges (flush env) rs n st) = Some st' ->
    sys st' = sys st /\
    exists evs, events st' = events st ++ evs /\ Forall (sweep_event env st) evs.
Proof.
  induction rs as [|[s e] rs IH]; intros n st st' H.
  - inversion H; subst. split; [reflexivity|].
    exists []. rewrite app_nil_r. split; [reflexivity|constructor].
  - cbn [run_ranges] in H. unfold bind in H. rewrite flush_eq in H.
    destruct (session_Run env (driver_session env st) (world st))
      as [w' [[k [x|]]|p]].
    + inversion H; subst. split; [reflexivity|].
      eexists. split; [reflexivity|]. repeat constructor.
    + apply IH in H as [Hs [evs [Hev Hall]]]. simpl in Hs, Hev.
      split; [exact Hs|].
      exists (EvSession (driver_session env st) (ERet (k, None)) :: evs).
      split; [rewrite Hev, <- app_assoc; reflexivity|].
      constructor; [reflexivity|exact Hall].
    + inversion H; subst. split; [reflexivity|].
      eexists. split; [reflexivity|]. repeat constructor.
Qed.

Lemma sweep_pass_end (n : Z) (st st' : State) :
  end_state (sweep_pass env n st) = Some st' ->
  sys st' = sys st /\
  exists evs, events st' = events st ++ evs /\ Forall (sweep_event env st) evs.
Proof.
  rewrite sweep_pass_eq.
  destruct (OldestOutdatedLedgers env (CurrentVersion env) (world st))
    as [w' [[e|[|x l]]|p]];
    try (intros H; inversion H; subst; split; [reflexivity|];
         exists []; rewrite app_nil_r; split; [reflexivity|constructor]).
  match goal with
  | |- context [run_ranges ?f ?rs ?n ?s] =>
      pose proof (run_ranges_end rs n s) as Hend;
      destruct (run_ranges f rs n s) as [[m [e|]] st1| |]
  end; intros H; inversion H; subst;
    destruct (Hend st' eq_refl) as [Hs [evs [Hev Hall]]];
    simpl in Hs, Hev; (split; [exact Hs|]);
    (eexists; split; [rewrite Hev, <- app_assoc; reflexivity|]);
    (constructor; [exact I|exact Hall]).
Qed.

Lemma sweep_loop_end (fuel : nat) :
  forall n (st st' : State),
    end_state (sweep_loop env fuel n st) = Some st' ->
    sys st' = sys st /\
    exists evs, events st' = events st ++ evs /\ Forall (sweep_event env st) evs.
Proof.
  induction fuel as [|fuel IH]; intros n st st' H; [discriminate|].
  rewrite sweep_loop_S in H.
  pose proof (sweep_pass_end n st) as Hpass.
  destruct (sweep_pass env n st) as [[[|r] n1] st1| |]; try discriminate.
  - destruct (Hpass st1 eq_refl) as [Hs1 [evs1 [Hev1 Hall1]]].
    apply IH in H as [Hs [evs [Hev Hall]]].
    split; [congruence|].
    exists (evs1 ++ evs). split; [rewrite Hev, Hev1, app_assoc; reflexivity|].
    apply Forall_app. split; [exact Hall1|].
    eapply Forall_impl; [|exact Hall]. intros ev. apply sweep_event_sys, Hs1.
  - inversion H; subst. apply Hpass. reflexivity.
  - inversion H; subst. apply Hpass. reflexivity.
Qed.

(** With a page that is never empty and sessions that never fail, a pass
    always asks for another. *)
Lemma run_ranges_all_succeed
    (Hrun : forall s w, exists w' k, session_Run env s w = (w', ERet (k, None)))
    (rs : list Range) :
  forall n (st : State),
    exists n' st', run_ranges (flush env) rs n st = Done (n', None) st'.
Proof.
  induction rs as [|[s e] rs IH]; intros n st.
  - exists n, st. reflexivity.
  - cbn [run_ranges]. unfold bind. rewrite flush_eq.
    destruct (Hrun (driver_session env st) (world st)) as [w' [k ->]].
    apply IH.
Qed.
End SweepTrace.

(** X5.  A sweep never refreshes: however it ends, by returning or by a
    panic, [coreSequence] and [historySequence] are what they were when it
    started, and every session it ran is the same session, the one built
    from those two fields; apart from the sessions it only leaves its
    "reingest: outdated" lines, and nothing goes to the crash reporter. *)
Theorem ReingestOutdated_same_session :
  forall (W P Err : Type) (env : Collaborators W P Err)
         (fuel : nat) (st st' : St W P Err),
    end_state (ReingestOutdated env fuel st) = Some st' ->
    sys st' = sys st /\
    exists evs,
      events st' = events st ++ evs /\
      Forall (sweep_event env st) evs /\
      Forall (fun s => s = driver_session env st) (sessions evs) /\
      reports evs = [].
Proof.
  intros W P Err env fuel st st' H.
  apply sweep_loop_end in H as [Hs [evs [Hev Hall]]].
  split; [exact Hs|]. exists evs. split; [exact Hev|]. split; [exact Hall|].
  clear Hev. induction Hall as [|ev evs Hev _ IH].
  - split; [constructor|reflexivity].
  - destruct IH as [IH1 IH2].
    destruct ev as [s out|lvl m|e]; simpl in *.
    + split; [constructor; assumption|assumption].
    + split; assumption.
    + contradiction.
Qed.

Lemma ReingestOutdated_same_session_witness :
  exists evs,
    [EvLog Info (MsgOutdated 3 6);
     EvSession (mkSession 101 100 7 true) (ERet (3, None));
     EvSession (mkSession 101 100 7 true) (ERet (1, Some (Stub.Failure 3)))]
    = events Stub.second_range_fails ++ evs /\
    Forall (fun s => s = mkSession 101 100 7 true) (sessions evs).
Proof.
  destruct (ReingestOutdated_same_session _ _ _ Stub.scripted 1
              Stub.second_range_fails
              (mkSt (mkSystem 100 100)
                 (Stub.mkScript (inr 100) (inr 100) [] [ERet (2, None)])
                 [EvLog Info (MsgOutdated 3 6);
                  EvSession (mkSession 101 100 7 true) (ERet (3, None));
                  EvSession (mkSession 101 100 7 true)
                    (ERet (1, Some (Stub.Failure 3)))])
              eq_refl) as [_ [evs [H1 [_ [H2 _]]]]].
  exists evs. split; [exact H1|exact H2].
Defined.

(** X6.  The risk the source notes above the loop: if the outdated query
    never comes back empty and no session ever reports an error, the sweep
    does not return, whatever the number of passes it is given. *)
Theorem ReingestOutdated_never_returns :
  forall (W P Err : Type) (env : Collaborators W P Err),
    (forall w, exists w' x l,
        OldestOutdatedLedgers env (CurrentVersion env) w
        = (w', ERet (inr (x :: l)))) ->
    (forall s w, exists w' k, session_Run env s w = (w', ERet (k, None))) ->
    forall (fuel : nat) (n : Z) (st : St W P Err),
      sweep_loop env fuel n st = OutOfFuel /\
      ReingestOutdated env fuel st = OutOfFuel.
Proof.
  intros W P Err env Hq Hrun.
  assert (H : forall fuel n (st : St W P Err),
             sweep_loop env fuel n st = OutOfFuel).
  { induction fuel as [|fuel IH]; intros n st; [reflexivity|].
    rewrite sweep_loop_S, sweep_pass_eq.
    destruct (Hq (world st)) as [w' [x [l ->]]].
    match goal with
    | |- context [run_ranges ?f ?rs ?n ?s] =>
        destruct (run_ranges_all_succeed env Hrun rs n s) as [n' [st' ->]]
    end.
    apply IH. }
  intros fuel n st. split; apply H.
Qed.

Lemma ReingestOutdated_never_returns_witness :
  ReingestOutdated Stub2.stuck 50 (Stub.start_state 100 100 tt) = OutOfFuel.
Proof.
  refine (proj2 (ReingestOutdated_never_returns _ _ _ Stub2.stuck _ _
                   50%nat 0 (Stub.start_state 100 100 tt))).
  - intros w. exists w, 7, []. reflexivity.
  - intros s w. exists w, 0. reflexivity.
Defined.

Lemma sumZ_nonneg (ks : list Z) : Forall (fun k => 0 <= k) ks -> 0 <= sumZ ks.
Proof.
  induction 1 as [|k ks Hk _ IH]; simpl; lia.
Qed.

Lemma add_int_exact (n k : Z) :
  - 2 ^ 63 <= n + k < 2 ^ 63 -> add_int n k = n + k.
Proof.
  intros H. unfold add_int, wrap_int. rewrite Z.mod_small; lia.
Qed.

Lemma add_counts_exact (ks : list Z) :
  forall n,
    0 <= n -> Forall (fun k => 0 <= k) ks -> n + sumZ ks < 2 ^ 63 ->
    add_counts n ks = n + sumZ ks.
Proof.
  induction ks as [|k ks IH]; intros n Hn Hall Hsum; simpl.
  - unfold add_counts. simpl. lia.
  - inversion Hall as [|? ? Hk Hall']; subst.
    pose proof (sumZ_nonneg ks Hall') as Hpos. simpl in Hsum.
    unfold add_counts in *. simpl.
    rewrite add_int_exact by lia. rewrite IH; auto; lia.
Qed.

(** X7.  As long as the counts are not negative and their sum stays below
    [2^63], the total a sweep returns is the exact sum of the counts of its
    session runs that returned without error. *)
Theorem ReingestOutdated_exact_total :
  forall (W P Err : Type) (env : Collaborators W P Err)
         (fuel : nat) (st st' : St W P Err) (n' : Z) (err : error Err),
    ReingestOutdated env fuel st = Done (n', err) st' ->
    exists evs,
      events st' = events st ++ evs /\
      (Forall (fun k => 0 <= k) (ok_counts evs) ->
       sumZ (ok_counts evs) < 2 ^ 63 ->
       n' = sumZ (ok_counts evs)).
Proof.
  intros W P Err env fuel st st' n' err H.
  apply sweep_loop_trace in H as [[evs [Hev Hn]] _].
  exists evs. split; [exact Hev|].
  intros Hpos Hsum. rewrite Hn, add_counts_exact; auto; lia.
Qed.

Lemma ReingestOutdated_exact_total_witness :
  exists evs : list (Event Stub.PanicVal Stub.Err),
    [EvLog Info (MsgOutdated 3 6);
     EvSession (mkSession 101 100 7 true) (ERet (3, None));
     EvSession (mkSession 101 100 7 true) (ERet (1, Some (Stub.Failure 3)))]
    = [] ++ evs /\
    3 = sumZ (ok_counts evs).
Proof.
  destruct (ReingestOutdated_exact_total _ _ _ Stub.scripted 1
              Stub.second_range_fails
              (mkSt (mkSystem 100 100)
                 (Stub.mkScript (inr 100) (inr 100) [] [ERet (2, None)])
                 [EvLog Info (MsgOutdated 3 6);
                  EvSession (mkSession 101 100 7 true) (ERet (3, None));
                  EvSession (mkSession 101 100 7 true)
                    (ERet (1, Some (Stub.Failure 3)))])
              3 (Some (Stub.Failure 3)) eq_refl) as [evs [H1 H2]].
  simpl in H1. subst evs. eexists. split; [reflexivity|].
  apply H2; simpl; [repeat constructor; lia|lia].
Defined.

(** * Further properties of the entry points *)

(** X8.  The operator entry points have no [recover]: a panic of the
    session reaches the caller of [ReingestRange] and of [ReingestSingle],
    and ends [ReingestAll] after a successful refresh and a sweep on its
    first range of a non-empty page; the trace ends with the panicking
    session, and nothing is logged as an error or reported. *)
Theorem entry_points_propagate_panics :
  forall (W P Err : Type) (env : Collaborators W P Err) (st : St W P Err),
    (forall start end_ w' p,
        session_Run env (driver_session env st) (world st) = (w', EPanic p) ->
        ReingestRange env start end_ st =
        Panicked p
          (mkSt (sys st) w'
             (events st ++ [EvSession (driver_session env st) (EPanic p)])) /\
        ReingestSingle env start st =
        Panicked p
          (mkSt (sys st) w'
             (events st ++ [EvSession (driver_session env st) (EPanic p)]))) /\
    (forall st1 w' p,
        updateLedgerState env st = Done None st1 ->
        session_Run env (driver_session env st1) (world st1) = (w', EPanic p) ->
        ReingestAll env st =
        Panicked p
          (mkSt (sys st1) w'
             (events st ++ [EvSession (driver_session env st1) (EPanic p)]))) /\
    (forall fuel n w0 x l w' p,
        OldestOutdatedLedgers env (CurrentVersion env) (world st)
        = (w0, ERet (inr (x :: l))) ->
        session_Run env (driver_session env st) w0 = (w', EPanic p) ->
        sweep_loop env (S fuel) n st =
        Panicked p
          (mkSt (sys st) w'
             ((events st ++
                 [EvLog Info (MsgOutdated x (Z.of_nat (length (x :: l))))]) ++
                [EvSession (driver_session env st) (EPanic p)]))).
Proof.
  intros W P Err env st. repeat split.
  - rewrite ReingestRange_eq, Run_eq. fold (driver_session env st).
    rewrite H. reflexivity.
  - unfold ReingestSingle, ReingestSingle_with, bind.
    rewrite ReingestRange_eq, Run_eq.
    fold (driver_session env st). rewrite H. reflexivity.
  - intros st1 w' p Hup Hrun. unfold ReingestAll, bind at 1. rewrite Hup.
    unfold bind, get_sys. rewrite ReingestRange_eq, Run_eq.
    fold (driver_session env st1). rewrite Hrun.
    rewrite (updateLedgerState_events env st st1 None Hup). reflexivity.
  - intros fuel n w0 x l w' p Hq Hrun.
    rewrite sweep_loop_S, sweep_pass_eq, Hq.
    assert (Hlen : (1 <= length (batch (x :: l)))%nat).
    { rewrite batch_cons. apply runs_from_length. }
    destruct (batch (x :: l)) as [|[s e] rs]; [simpl in Hlen; lia|].
    cbn [run_ranges]. unfold bind. rewrite flush_eq.
    unfold driver_session in *. cbn [sys world events]. rewrite Hrun.
    reflexivity.
Qed.

Lemma entry_points_propagate_panics_witness :
  ReingestSingle Stub.scripted 42
    (mkSt (mkSystem 100 40)
       (Stub.mkScript (inr 100) (inr 40) [] [EPanic (Some 13)]) []) =
  Panicked (Some 13)
    (mkSt (mkSystem 100 40) (Stub.mkScript (inr 100) (inr 40) [] [])
       [EvSession (mkSession 41 100 7 true) (EPanic (Some 13))]).
Proof.
  apply (proj2 (proj1 (entry_points_propagate_panics _ _ _ Stub.scripted
                         (mkSt (mkSystem 100 40)
                            (Stub.mkScript (inr 100) (inr 40) []
                               [EPanic (Some 13)])
                            []))
                  42 42 (Stub.mkScript (inr 100) (inr 40) [] []) (Some 13)
                  eq_refl)).
Defined.

(** X9.  When the history store is not behind the source store, that is
    when the refresh of [ReingestAll] reads [c <= h], the one session
    [ReingestAll] runs is asked for the ledgers from [h + 1] to [c]: its
    first ledger lies beyond its last. *)
Theorem ReingestAll_in_sync :
  forall (W P Err : Type) (env : Collaborators W P Err) (st : St W P Err)
         w1 c w2 h,
    core_LatestLedger env (world st) = (w1, ERet (inr c)) ->
    history_LatestLedger env w1 = (w2, ERet (inr h)) ->
    c <= h -> min_int32 <= h < max_int32 ->
    ReingestAll env st =
    Run env (mkSession (h + 1) c (CurrentVersion env) true)
      (mkSt (mkSystem c h) w2 (events st)) /\
    LastLedger (mkSession (h + 1) c (CurrentVersion env) true)
    < FirstLedger (mkSession (h + 1) c (CurrentVersion env) true).
Proof.
  intros W P Err env st w1 c w2 h Hc Hh Hle Hrange. split; [|simpl; lia].
  unfold ReingestAll, bind at 1. rewrite updateLedgerState_eq, Hc. simpl.
  rewrite Hh. unfold bind, get_sys. rewrite ReingestRange_eq. simpl.
  rewrite add32_succ by lia. reflexivity.
Qed.

Lemma ReingestAll_in_sync_witness :
  ReingestAll Stub.catchup Stub2.in_sync =
  Run Stub.catchup (mkSession (100 + 1) 100 7 true)
    (mkSt (mkSystem 100 100) (Stub.mkStores 100 100) []) /\
  100 < 100 + 1.
Proof.
  apply (ReingestAll_in_sync _ _ _ Stub.catchup Stub2.in_sync
           (Stub.mkStores 100 100) 100 (Stub.mkStores 100 100) 100
           eq_refl eq_refl).
  - lia.
  - unfold min_int32, max_int32. lia.
Defined.

(** * Further properties of the poller *)

Section PollerTrace.
Context {W P Err : Type}.
Variable env : Collaborators W P Err.

Local Abbreviation State := (St W P Err).

(** However a pass ends, it leaves at most one session, built from what
    the stores just answered, and error lines. *)
Lemma runOnce_pass_end (st st' : State) :
  end_state (runOnce_pass env st) = Some st' ->
  exists evs,
    events st' = events st ++ evs /\ Forall (catchup_event env) evs.
Proof.
  rewrite runOnce_pass_eq, updateLedgerState_eq.
  destruct (core_LatestLedger env (world st)) as [w1 [[e|c]|p]] eqn:Hc.
  - intros H; inversion H; subst. eexists. split; [reflexivity|].
    repeat constructor.
  - cbv zeta.
    destruct (history_LatestLedger env w1) as [w2 [[e|h]|p]] eqn:Hh.
    + intros H; inversion H; subst. eexists. split; [reflexivity|].
      repeat constructor.
    + cbn [sys world events coreSequence historySequence].
      destruct (Z.geb_spec h c) as [Hge|Hlt].
      * intros H; inversion H; subst. exists []. rewrite app_nil_r.
        split; [reflexivity|constructor].
      * assert (Hread : read_from_stores env
                          (mkSession (add32 h 1) c (CurrentVersion env) false)).
        { exists (world st), w1, w1, w2, c, h. auto. }
        destruct (session_Run env
                    (mkSession (add32 h 1) c (CurrentVersion env) false) w2)
          as [w3 [[k [e|]]|p]];
          intros H; inversion H; subst;
          (eexists; split; [try rewrite <- app_assoc; reflexivity|]);
          repeat constructor; exact Hread.
    + intros H; inversion H; subst. exists []. rewrite app_nil_r.
      split; [reflexivity|constructor].
  - intros H; inversion H; subst. exists []. rewrite app_nil_r.
    split; [reflexivity|constructor].
Qed.

Lemma runOnce_loop_end (fuel : nat) :
  forall st st' : State,
    end_state (runOnce_loop env fuel st) = Some st' ->
    exists evs,
      events st' = events st ++ evs /\ Forall (catchup_event env) evs.
Proof.
  induction fuel as [|fuel IH]; intros st st' H; [discriminate|].
  rewrite runOnce_loop_S in H.
  pose proof (runOnce_pass_end st) as Hpass.
  destruct (runOnce_pass env st) as [[|[]] st1| |]; try discriminate.
  - destruct (Hpass st1 eq_refl) as [evs1 [Hev1 Hall1]].
    apply IH in H as [evs [Hev Hall]].
    exists (evs1 ++ evs). split; [rewrite Hev, Hev1, app_assoc; reflexivity|].
    apply Forall_app. auto.
  - inversion H; subst. apply Hpass. reflexivity.
  - inversion H; subst. apply Hpass. reflexivity.
Qed.

(** [runOnce] returns with the trace of its body, followed, when the body
    panicked with a value that is not [nil], by the error line and the
    report. *)
Lemma runOnce_end (fuel : nat) (st st' : State) :
  runOnce env fuel st = Done tt st' ->
  exists evs,
    events st' = events st ++ evs /\
    match runOnce_loop env fuel st with
    | Done _ _ => Forall (catchup_event env) evs
    | Panicked (Some rec) _ =>
        exists evs0,
          evs = evs0 ++ [EvLog Error (MsgSessionPanicked (FromPanic env rec));
                         EvSentry (FromPanic env rec)] /\
          Forall (catchup_event env) evs0
    | Panicked None _ => Forall (catchup_event env) evs
    | OutOfFuel => False
    end.
Proof.
  unfold runOnce, with_recover.
  pose proof (runOnce_loop_end fuel st) as Hend.
  destruct (runOnce_loop env fuel st) as [[] s|[rec|] s|]; try discriminate.
  - intros H; inversion H; subst. apply Hend. reflexivity.
  - destruct (Hend s eq_refl) as [evs0 [Hev0 Hall0]].
    unfold recovered, bind, log, ReportToSentry, emit. simpl.
    intros H; inversion H; subst; clear H. simpl.
    eexists. split; [rewrite Hev0, <- !app_assoc; reflexivity|].
    exists evs0. split; [reflexivity|exact Hall0].
  - intros H; inversion H; subst. apply Hend. reflexivity.
Qed.

Lemma catchup_events_sessions (evs : list (Event P Err)) :
  Forall (catchup_event env) evs ->
  Forall (read_from_stores env) (sessions evs).
Proof.
  induction 1 as [|ev evs Hev _ IH]; [constructor|].
  destruct ev as [s out|lvl m|e]; simpl in *; auto.
Qed.

Lemma catchup_events_quiet (evs : list (Event P Err)) :
  Forall (catchup_event env) evs -> reports evs = [] /\ tickings evs = 0%nat.
Proof.
  unfold tickings.
  induction 1 as [|ev evs Hev _ [IH1 IH2]]; [split; reflexivity|].
  destruct ev as [s out|lvl m|e]; simpl in *; auto.
  - destruct lvl; try contradiction. destruct m; try contradiction; auto.
  - contradiction.
Qed.

Lemma tickings_app (a b : list (Event P Err)) :
  tickings (a ++ b) = (tickings a + tickings b)%nat.
Proof. unfold tickings. rewrite filter_app, length_app. reflexivity. Qed.

Lemma reports_app (a b : list (Event P Err)) :
  reports (a ++ b) = reports a ++ reports b.
Proof. unfold reports. apply flat_map_app. Qed.

Lemma sessions_app (a b : list (Event P Err)) :
  sessions (a ++ b) = sessions a ++ sessions b.
Proof. unfold sessions. apply flat_map_app. Qed.

(** What one [runOnce] that returns adds to the counts of a trace. *)
Lemma runOnce_quiet (fuel : nat) (st st' : State) :
  runOnce env fuel st = Done tt st' ->
  exists evs,
    events st' = events st ++ evs /\
    tickings evs = 0%nat /\ (length (reports evs) <= 1)%nat.
Proof.
  intros H. apply runOnce_end in H as [evs [Hev Hcase]].
  exists evs. split; [exact Hev|].
  destruct (runOnce_loop env fuel st) as [[] s|[rec|] s|]; [| | |contradiction].
  - apply catchup_events_quiet in Hcase as [-> ->]. simpl. lia.
  - destruct Hcase as [evs0 [-> Hall]].
    apply catchup_events_quiet in Hall as [Hr Ht].
    rewrite tickings_app, reports_app, Hr, Ht. simpl. split; [reflexivity|lia].
  - apply catchup_events_quiet in Hcase as [-> ->]. simpl. lia.
Qed.

Lemma tick_blocks_counts (blocks : list (list (Event P Err))) :
  Forall (fun b => tickings b = 0%nat /\ (length (reports b) <= 1)%nat) blocks ->
  tickings (tick_blocks blocks) = length blocks /\
  (length (reports (tick_blocks blocks)) <= length blocks)%nat.
Proof.
  induction 1 as [|b blocks [Ht Hr] _ [IH1 IH2]]; [split; reflexivity|].
  unfold tick_blocks in *. cbn [map concat length].
  change (EvLog Debug MsgTicking :: b) with ([EvLog Debug MsgTicking] ++ b).
  rewrite !tickings_app, !reports_app, !length_app, Ht, IH1.
  simpl. split; lia.
Qed.

(** The trace of [run]: tick by tick, the line and then one [runOnce]. *)
Lemma run_end (fuel ticks : nat) :
  forall st st' : State,
    run env ticks fuel st = Done tt st' ->
    exists blocks,
      length blocks = ticks /\
      events st' = events st ++ tick_blocks blocks /\
      Forall (fun b => one_runOnce env fuel b /\
                       tickings b = 0%nat /\
                       (length (reports b) <= 1)%nat) blocks.
Proof.
  induction ticks as [|ticks IH]; intros st st' H.
  - inversion H; subst. exists []. unfold tick_blocks. simpl.
    rewrite app_nil_r. repeat split. constructor.
  - simpl in H. unfold bind at 1 in H. unfold log, emit in H.
    unfold bind at 1 in H.
    match type of H with
    | context [runOnce env fuel ?s0] =>
        pose proof (runOnce_quiet fuel s0) as Hq;
        destruct (runOnce env fuel s0) as [[] s1|p1 s1|] eqn:Hone;
        try discriminate
    end.
    destruct (Hq s1 eq_refl) as [evs1 [Hev1 [Ht1 Hr1]]]. simpl in Hev1.
    apply IH in H as [blocks [Hlen [Hev2 Hall]]].
    exists (evs1 :: blocks). split; [simpl; lia|]. split.
    + unfold tick_blocks in *. cbn [map concat].
      rewrite Hev2, Hev1, <- !app_assoc. reflexivity.
    + constructor; [|exact Hall]. split; [|split; assumption].
      exists st, s1. split; [exact Hone|exact Hev1].
Qed.
End PollerTrace.

Lemma read_from_stores_shape {W P Err : Type} (env : Collaborators W P Err)
    (s : Session) :
  read_from_stores env s ->
  ClearExisting s = false /\ Version s = CurrentVersion env /\
  (answers_int32 env -> FirstLedger s <= LastLedger s).
Proof.
  intros [w1 [w1' [w2 [w2' [c [h [Hc [Hh [Hlt ->]]]]]]]]]. simpl.
  repeat split. intros [Hcs Hhs].
  specialize (Hcs _ _ _ Hc). specialize (Hhs _ _ _ Hh).
  unfold in_int32 in *. rewrite add32_succ by lia. lia.
Qed.

(** X10.  Every session a [runOnce] that returns has run, in however many
    passes, was built from answers of the two stores: it goes from [h + 1]
    to [c] for a history answer [h] below a source answer [c], carries the
    current version, and never has [ClearExisting] set.  When the stores
    answer with [int32] values, no such session is asked for an empty
    range. *)
Theorem runOnce_sessions_from_stores :
  forall (W P Err : Type) (env : Collaborators W P Err)
         (fuel : nat) (st st' : St W P Err),
    runOnce env fuel st = Done tt st' ->
    exists evs,
      events st' = events st ++ evs /\
      Forall (read_from_stores env) (sessions evs) /\
      Forall (fun s => ClearExisting s = false /\
                       Version s = CurrentVersion env) (sessions evs) /\
      (answers_int32 env ->
       Forall (fun s => FirstLedger s <= LastLedger s) (sessions evs)).
Proof.
  intros W P Err env fuel st st' H.
  apply runOnce_end in H as [evs [Hev Hcase]].
  assert (Hread : Forall (read_from_stores env) (sessions evs)).
  { destruct (runOnce_loop env fuel st) as [[] s|[rec|] s|];
      [| | |contradiction].
    - apply catchup_events_sessions. exact Hcase.
    - destruct Hcase as [evs0 [-> Hall]].
      rewrite sessions_app. simpl. rewrite app_nil_r.
      apply catchup_events_sessions. exact Hall.
    - apply catchup_events_sessions. exact Hcase. }
  exists evs. split; [exact Hev|]. split; [exact Hread|]. split.
  - eapply Forall_impl; [|exact Hread]. intros s Hs.
    destruct (read_from_stores_shape env s Hs) as [H1 [H2 _]]. auto.
  - intros Hans. eapply Forall_impl; [|exact Hread]. intros s Hs.
    destruct (read_from_stores_shape env s Hs) as [_ [_ H3]]. auto.
Qed.

Lemma runOnce_sessions_from_stores_witness :
  exists evs : list (Event Stub.PanicVal Stub.Err),
    [EvSession (mkSession 41 100 7 false) (ERet (60, None))] = [] ++ evs /\
    Forall (fun s => FirstLedger s <= LastLedger s) (sessions evs).
Proof.
  destruct (runOnce_sessions_from_stores _ _ _ Stub2.two_step 2
              (Stub.start_state 0 0 false)
              (mkSt (mkSystem 100 100) true
                 [EvSession (mkSession 41 100 7 false) (ERet (60, None))])
              eq_refl) as [evs [H1 [_ [_ H2]]]].
  exists evs. split; [exact H1|]. apply H2. split.
  - intros w w' c H. inversion H; subst.
    unfold in_int32, min_int32, max_int32. lia.
  - intros w w' h H. inversion H; subst.
    destruct w'; unfold in_int32, min_int32, max_int32; lia.
Defined.

(** X11.  In a [runOnce] that returns, the crash reporter is called only
    for a panic whose value is not [nil], and then once, with the error made
    from that value: a failed refresh, a failed session and a panic with a
    [nil] value lead to no report. *)
Theorem runOnce_reports_only_panics :
  forall (W P Err : Type) (env : Collaborators W P Err)
         (fuel : nat) (st st' : St W P Err),
    runOnce env fuel st = Done tt st' ->
    exists evs,
      events st' = events st ++ evs /\
      match runOnce_loop env fuel st with
      | Done _ _ => reports evs = []
      | Panicked (Some rec) _ => reports evs = [FromPanic env rec]
      | Panicked None _ => reports evs = []
      | OutOfFuel => False
      end.
Proof.
  intros W P Err env fuel st st' H.
  apply runOnce_end in H as [evs [Hev Hcase]].
  exists evs. split; [exact Hev|].
  destruct (runOnce_loop env fuel st) as [[] s|[rec|] s|]; [| | |contradiction].
  - apply (catchup_events_quiet env). exact Hcase.
  - destruct Hcase as [evs0 [-> Hall]].
    apply (catchup_events_quiet env) in Hall as [Hr _].
    rewrite reports_app, Hr. reflexivity.
  - apply (catchup_events_quiet env). exact Hcase.
Qed.

Lemma runOnce_reports_only_panics_witness :
  (exists evs : list (Event Stub.PanicVal Stub.Err),
      [EvSession (mkSession 41 100 7 false) (EPanic (Some 13));
       EvLog Error (MsgSessionPanicked (Stub.PanicError 13));
       EvSentry (Stub.PanicError 13)] = [] ++ evs /\
      reports evs = [Stub.PanicError 13]) /\
  (exists evs : list (Event Stub.PanicVal Stub.Err),
      [EvSession (mkSession 41 100 7 false) (EPanic None)] = [] ++ evs /\
      reports evs = []).
Proof.
  split.
  - apply (runOnce_reports_only_panics _ _ _ Stub.scripted 1
             Stub.session_panics
             (mkSt (mkSystem 100 40) (Stub.mkScript (inr 100) (inr 40) [] [])
                [EvSession (mkSession 41 100 7 false) (EPanic (Some 13));
                 EvLog Error (MsgSessionPanicked (Stub.PanicError 13));
                 EvSentry (Stub.PanicError 13)])
             eq_refl).
  - apply (runOnce_reports_only_panics _ _ _ Stub.scripted 1
             Stub.session_panics_nil
             (mkSt (mkSystem 100 40) (Stub.mkScript (inr 100) (inr 40) [] [])
                [EvSession (mkSession 41 100 7 false) (EPanic None)])
             eq_refl).
Defined.

(** X12.  The trace of a [run] over [k] ticks that comes back is made of
    [k] blocks, one per tick: each is the "ticking ingester" line followed
    by what one [runOnce], started right after that line, left; the block of
    a [runOnce] holds no "ticking ingester" line and at most one report to
    the crash reporter.  So the line is written exactly [k] times and the
    crash reporter is called at most [k] times. *)
Theorem run_one_runOnce_per_tick :
  forall (W P Err : Type) (env : Collaborators W P Err)
         (ticks fuel : nat) (st st' : St W P Err),
    run env ticks fuel st = Done tt st' ->
    exists blocks,
      length blocks = ticks /\
      events st' = events st ++ tick_blocks blocks /\
      Forall (fun b => one_runOnce env fuel b /\
                       tickings b = 0%nat /\
                       (length (reports b) <= 1)%nat) blocks /\
      tickings (tick_blocks blocks) = ticks /\
      (length (reports (tick_blocks blocks)) <= ticks)%nat.
Proof.
  intros W P Err env ticks fuel st st' H.
  destruct (run_end env fuel ticks st st' H) as [blocks [Hlen [Hev Hall]]].
  exists blocks. split; [exact Hlen|]. split; [exact Hev|].
  split; [exact Hall|].
  rewrite <- Hlen. apply tick_blocks_counts.
  eapply Forall_impl; [|exact Hall]. intros b [_ Hb]. exact Hb.
Qed.

Lemma run_one_runOnce_per_tick_witness :
  exists blocks : list (list (Event Stub.PanicVal Stub.Err)),
    length blocks = 2%nat /\
    [EvLog Debug MsgTicking;
     EvSession (mkSession 41 100 7 false) (EPanic (Some 13));
     EvLog Error (MsgSessionPanicked (Stub.PanicError 13));
     EvSentry (Stub.PanicError 13);
     EvLog Debug MsgTicking;
     EvSession (mkSession 41 100 7 false) (ERet (0, None))]
    = [] ++ tick_blocks blocks /\
    Forall (fun b => one_runOnce Stub.scripted 1 b /\
                     tickings b = 0%nat /\
                     (length (reports b) <= 1)%nat) blocks.
Proof.
  destruct (run_one_runOnce_per_tick _ _ _ Stub.scripted 2 1
              Stub.session_panics
              (mkSt (mkSystem 100 40)
                 (Stub.mkScript (inr 100) (inr 40) [] [])
                 [EvLog Debug MsgTicking;
                  EvSession (mkSession 41 100 7 false) (EPanic (Some 13));
                  EvLog Error (MsgSessionPanicked (Stub.PanicError 13));
                  EvSentry (Stub.PanicError 13);
                  EvLog Debug MsgTicking;
                  EvSession (mkSession 41 100 7 false) (ERet (0, None))])
              eq_refl) as [blocks [H1 [H2 [H3 _]]]].
  exists blocks. split; [exact H1|]. split; [exact H2|exact H3].
Defined.
